(** * topscratchprojects.py: crawl, rank and merge of Scratch project records

    A shallow embedding of [src/topscratchprojects.py]: the fetcher, the
    chunk crawler with its ranking step, the chunk partition of
    [run_chunks], the merger and the dispatch of the entry point, followed
    by the properties of each. *)

From Stdlib Require Import ZArith Lia Bool String Ascii List.
From Stdlib Require Import DecimalString DecimalZ DecimalPos DecimalFacts.
From Stdlib Require Import Sorting.Permutation Sorting.Sorted.
From stdpp Require Import base option list strings gmap sorting.

#[local] Set Warnings "-register-all".

Local Open Scope Z_scope.

(** ** Python values and exceptions *)

Module Py.

(** The exception classes the program can meet.  [CancelledError] and
    [KeyboardInterrupt] derive from [BaseException] only; every other
    class derives from [Exception]. *)
Inductive exn : Type :=
| KeyError | TypeError | ValueError | FileNotFoundError
| TimeoutError | ClientError | ContentTypeError | JSONDecodeError
| CancelledError | KeyboardInterrupt.

Definition is_Exception (e : exn) : bool :=
  match e with
  | CancelledError | KeyboardInterrupt => false
  | _ => true
  end.

(** A computation that returns a value or raises. *)
Inductive result (A : Type) : Type :=
| Return (a : A)
| Raise (e : exn).
Arguments Return {A} a.
Arguments Raise {A} e.

Definition bind {A B : Type} (m : result A) (k : A -> result B) : result B :=
  match m with
  | Return a => k a
  | Raise e => Raise e
  end.

#[global] Instance result_ret : MRet result := @Return.
#[global] Instance result_bind : MBind result := fun A B k m => bind m k.

(** [try: body / except Exception: handler]: the handler runs for the
    classes that derive from [Exception]; anything else propagates. *)
Definition try_except_Exception {A : Type} (body handler : result A) : result A :=
  match body with
  | Return a => Return a
  | Raise e => if is_Exception e then handler else Raise e
  end.

(** What [json.loads] builds.  A dict is kept as its item list; a float
    is kept as its literal, since the program never computes with one. *)
Inductive pyval : Type :=
| PNone
| PBool (b : bool)
| PInt (n : Z)
| PFloat (literal : string)
| PStr (s : string)
| PList (items : list pyval)
| PDict (items : list (string * pyval)).

Fixpoint dict_get (k : string) (items : list (string * pyval)) : option pyval :=
  match items with
  | [] => None
  | (k', v) :: rest => if String.eqb k k' then Some v else dict_get k rest
  end.

(** [v[k]] for a string key [k]: a dict looks the key up and raises
    [KeyError] when it is missing; a list or a str wants an integer index
    and every other value is not subscriptable, both [TypeError]. *)
Definition getitem (v : pyval) (k : string) : result pyval :=
  match v with
  | PDict items =>
      match dict_get k items with
      | Some x => Return x
      | None => Raise KeyError
      end
  | _ => Raise TypeError
  end.

(** [range(start, stop, step)] for a positive step. *)
Definition range_len (start stop step : Z) : nat :=
  if start <? stop then Z.to_nat ((stop - start - 1) / step + 1) else 0%nat.

Definition range (start stop step : Z) : list Z :=
  List.map (fun i : nat => start + Z.of_nat i * step) (seq 0 (range_len start stop step)).

(** [str(n)]: the decimal numeral of an integer. *)
Definition str (n : Z) : string := NilZero.string_of_int (Z.to_int n).

(** A [str] is held as the bytes of its UTF-8 encoding, the encoding of
    the CSV files (lines 53, 75 and 80).  [code_points] decodes the bytes;
    it gives [None] for bytes that are no well-formed UTF-8, which is no
    text a reader of such a file yields. *)
Definition byte (a : ascii) : Z := Z.of_N (N_of_ascii a).

Definition continuation (b : Z) : bool := (128 <=? b) && (b <? 192).

Fixpoint code_points (s : string) : option (list Z) :=
  match s with
  | EmptyString => Some []
  | String a0 s1 =>
      let b0 := byte a0 in
      if b0 <? 128 then cons b0 <$> code_points s1
      else
        match s1 with
        | EmptyString => None
        | String a1 s2 =>
            let b1 := byte a1 in
            if negb (continuation b1) then None
            else if b0 <? 194 then None
            else if b0 <? 224 then
              cons ((b0 - 192) * 64 + (b1 - 128)) <$> code_points s2
            else
              match s2 with
              | EmptyString => None
              | String a2 s3 =>
                  let b2 := byte a2 in
                  if negb (continuation b2) then None
                  else if b0 <? 240 then
                    let c := (b0 - 224) * 4096 + (b1 - 128) * 64 + (b2 - 128) in
                    if (c <? 2048) || ((55296 <=? c) && (c <? 57344)) then None
                    else cons c <$> code_points s3
                  else
                    match s3 with
                    | EmptyString => None
                    | String a3 s4 =>
                        let b3 := byte a3 in
                        let c := (b0 - 240) * 262144 + (b1 - 128) * 4096 +
                                 (b2 - 128) * 64 + (b3 - 128) in
                        if negb (continuation b3) then None
                        else if (c <? 65536) || (1114112 <=? c) then None
                        else cons c <$> code_points s4
                    end
              end
        end
  end.

(** The white space [int] skips around a numeral: tab to carriage return
    and the space, and beyond ASCII the characters [str.isspace] knows. *)
Definition isspace (c : Z) : bool :=
  ((9 <=? c) && (c <=? 13)) || (c =? 32) || (c =? 133) || (c =? 160) ||
  (c =? 5760) || ((8192 <=? c) && (c <=? 8202)) || (c =? 8232) || (c =? 8233) ||
  (c =? 8239) || (c =? 8287) || (c =? 12288).

(** The zero of every run of ten decimal digits (category Nd) of
    Unicode 14.0, the character data of Python 3.11. *)
Definition digit_zeros : list Z :=
  [48; 1632; 1776; 1984; 2406; 2534; 2662; 2790; 2918; 3046; 3174; 3302;
   3430; 3558; 3664; 3792; 3872; 4160; 4240; 6112; 6160; 6470; 6608; 6784;
   6800; 6992; 7088; 7232; 7248; 42528; 43216; 43264; 43472; 43504; 43600;
   44016; 65296; 66720; 68912; 69734; 69872; 69942; 70096; 70384; 70736;
   70864; 71248; 71360; 71472; 71904; 72016; 72784; 73040; 73120; 92768;
   92864; 93008; 120782; 120792; 120802; 120812; 120822; 123200; 123632;
   125264; 130032].

(** The digit a character stands for, if it is a decimal digit. *)
Definition todecimal (c : Z) : option Z :=
  (fun zero => c - zero) <$> List.find (fun zero => (zero <=? c) && (c <? zero + 10)) digit_zeros.

(** The numeral after the sign: digits, single underscores between
    digits, then white space up to the end. *)
Inductive scan : Type :=
| Start
| AfterDigit (n : Z)
| AfterUnderscore (n : Z)
| Trailing (n : Z).

Definition scan_step (st : scan) (c : Z) : option scan :=
  match todecimal c with
  | Some d =>
      match st with
      | Start => Some (AfterDigit d)
      | AfterDigit n | AfterUnderscore n => Some (AfterDigit (10 * n + d))
      | Trailing _ => None
      end
  | None =>
      if c =? 95 then
        match st with
        | AfterDigit n => Some (AfterUnderscore n)
        | _ => None
        end
      else if isspace c then
        match st with
        | AfterDigit n | Trailing n => Some (Trailing n)
        | _ => None
        end
      else None
  end.

Fixpoint scan_text (st : scan) (text : list Z) : option scan :=
  match text with
  | [] => Some st
  | c :: rest =>
      match scan_step st c with
      | Some st' => scan_text st' rest
      | None => None
      end
  end.

Fixpoint lstrip (text : list Z) : list Z :=
  match text with
  | c :: rest => if isspace c then lstrip rest else text
  | [] => []
  end.

(** [int(s)] for a [str]: white space, an optional sign, the numeral,
    white space; anything else is a [ValueError].  The limit newer
    interpreters put on the number of digits (4300 unless configured
    otherwise) is left out, for [str] as for [int]. *)
Definition int_of_text (text : list Z) : result Z :=
  let body := lstrip text in
  let signed :=
    match body with
    | c :: rest =>
        if c =? 45 then (true, rest) else if c =? 43 then (false, rest) else (false, body)
    | [] => (false, [])
    end in
  match scan_text Start (snd signed) with
  | Some (AfterDigit n) | Some (Trailing n) => Return (if fst signed then - n else n)
  | _ => Raise ValueError
  end.

Definition int (s : string) : result Z :=
  match code_points s with
  | Some text => int_of_text text
  | None => Raise ValueError
  end.

End Py.

Import Py.

(** ** Records *)

(** The dict with the keys ['ID'], ['Title'], ['Creator'] and ['Views'].
    The program handles it at three typings: as [fetch] builds it from a
    payload, as the data model types it, and as [csv.DictReader] reads it
    back. *)
Record Row (I T V : Type) : Type := mkRow {
  ID : I;
  Title : T;
  Creator : T;
  Views : V
}.
Arguments mkRow {I T V} _ _ _ _.
Arguments ID {I T V} _.
Arguments Title {I T V} _.
Arguments Creator {I T V} _.
Arguments Views {I T V} _.

Definition Fetched : Type := Row Z pyval pyval.
Definition Record_ : Type := Row Z string Z.
Definition CsvRow : Type := Row string string string.

(** ** Constants *)

Definition CHUNK_SIZE : Z := 100000.
Definition OUTPUT_DIR : string := "chunks".
Definition TOP_N : Z := 1000000.
Definition SEMAPHORE_CAPACITY : nat := 125.

(** ** fetch *)

(** What happens to one [fetch].  The task is cancelled while
    [async with semaphore] waits for a slot (line 18, outside the [try]),
    and there is no GET; or the block is entered and the transport does
    its one GET: [session.get] raises, or a response arrives with a status
    and [await response.json()] raises or yields the decoded body. *)
Inductive get_outcome : Type :=
| WaitCancelled
| GetRaises (e : exn)
| GetResponse (status : Z) (json : result pyval).

(** Line 18: the wait for a slot raises [CancelledError] in a task that
    is cancelled meanwhile, and nothing catches it.  Lines 20-32: the
    value of the [try] block is [Some r] when its [return] ran and [None]
    when control left the block; the function then returns [None].
    Leaving the block releases the slot and does not change the value. *)
Definition fetch (o : get_outcome) (project_id : Z) : result (option Fetched) :=
  match o with
  | WaitCancelled => Raise CancelledError
  | GetRaises e => try_except_Exception (Raise e) (Return None)
  | GetResponse status json =>
      try_except_Exception
        (if status =? 200 then
           data ← json;
           title ← getitem data "title";
           author ← getitem data "author";
           username ← getitem author "username";
           stats ← getitem data "stats";
           views ← getitem stats "views";
           Return (Some (mkRow project_id title username views))
         else Return None)
        (Return None)
  end.

(** *** Payload shape *)

Definition field (k : string) (v : pyval) : option pyval :=
  match v with
  | PDict items => dict_get k items
  | _ => None
  end.

Definition payload_title (data : pyval) : option pyval := field "title" data.
Definition payload_username (data : pyval) : option pyval :=
  match field "author" data with Some a => field "username" a | None => None end.
Definition payload_views (data : pyval) : option pyval :=
  match field "stats" data with Some s => field "views" s | None => None end.

Definition has_required_fields (data : pyval) : bool :=
  match payload_title data, payload_username data, payload_views data with
  | Some _, Some _, Some _ => true
  | _, _, _ => false
  end.

(** The failures of one fetch: the request or the body decoding raises an
    error, the status is outside 200..299, or a required field is missing. *)
Inductive fetch_failure : get_outcome -> Prop :=
| request_raises e :
    is_Exception e = true -> fetch_failure (GetRaises e)
| status_not_2xx status json :
    ~ (200 <= status < 300) -> fetch_failure (GetResponse status json)
| body_raises status e :
    is_Exception e = true -> fetch_failure (GetResponse status (Raise e))
| field_missing status data :
    has_required_fields data = false ->
    fetch_failure (GetResponse status (Return data)).

(** ** Ranking *)

Section Ranker.
Context {A : Type} (key : A -> Z).

(** [l.sort(key=key, reverse=True)] is a stable sort: records with equal
    keys keep the order they had.  [insert_desc x l] puts [x], which
    came before the members of [l], in front of the first member whose
    key is not larger. *)
Fixpoint insert_desc (x : A) (l : list A) : list A :=
  match l with
  | [] => [x]
  | y :: l' => if key x <? key y then y :: insert_desc x l' else x :: y :: l'
  end.

Definition sort_desc (l : list A) : list A := foldr insert_desc [] l.

(** Sort, then [[:limit]]. *)
Definition rank (limit : nat) (records : list A) : list A :=
  take limit (sort_desc records).

(** The merge of two lists that prefers the left one on equal keys. *)
Fixpoint merge_desc (l1 : list A) : list A -> list A :=
  fix merge_aux (l2 : list A) : list A :=
    match l1, l2 with
    | [], _ => l2
    | _, [] => l1
    | x :: l1', y :: l2' =>
        if key x <? key y then y :: merge_aux l2' else x :: merge_desc l1' l2
    end.

(** [x] may stand in front of [y]. *)
Definition before (x y : A) : Prop := key y <= key x.

Definition sorted_desc (l : list A) : Prop :=
  forall (i j : nat) (x y : A),
    (i < j)%nat -> l !! i = Some x -> l !! j = Some y -> key y <= key x.
End Ranker.

(** ** Files *)

(** A CSV file is the list of dicts [csv.DictReader] yields for it; the
    writer prints an integer with [str] and a string as it is. *)
Definition to_row (r : Record_) : CsvRow :=
  mkRow (Py.str (ID r)) (Title r) (Creator r) (Py.str (Views r)).

(** The files the program touches: those of [OUTPUT_DIR] by name, and
    [top_scratch_projects.csv] in the working directory. *)
Inductive path : Type :=
| FinalFile
| ChunkFile (name : string).

Record world : Type := mkWorld {
  chunk_files : gmap string (list CsvRow);
  final_file : option (list CsvRow);
  requests : list Z
}.

Definition write_csv (output_file : path) (rows : list CsvRow) (w : world) : world :=
  match output_file with
  | FinalFile => mkWorld (chunk_files w) (Some rows) (requests w)
  | ChunkFile name => mkWorld (<[name := rows]> (chunk_files w)) (final_file w) (requests w)
  end.

Definition read_csv (name : string) (w : world) : result (list CsvRow) :=
  match chunk_files w !! name with
  | Some rows => Return rows
  | None => Raise FileNotFoundError
  end.

Definition issue (ids : list Z) (w : world) : world :=
  mkWorld (chunk_files w) (final_file w) (requests w ++ ids).

(** [s.endswith(suffix)] *)
Definition endswith (s suffix : string) : bool :=
  let n := String.length s in
  let m := String.length suffix in
  (m <=? n)%nat && String.eqb (substring (n - m) m s) suffix.

(** [f"{s:10}"] for a number: right-aligned, padded with spaces. *)
Fixpoint spaces (n : nat) : string :=
  match n with
  | O => EmptyString
  | S n' => String " " (spaces n')
  end.

Definition rjust (width : nat) (s : string) : string :=
  String.append (spaces (width - String.length s)) s.

(** [sorted(names)] *)
Definition str_le (a b : string) : Prop := String.leb a b = true.

#[global] Instance str_le_dec : RelDecision str_le.
Proof. intros a b. unfold str_le. apply _. Defined.

Definition sorted (names : list string) : list string := merge_sort str_le names.

(** ** The crawl, the chunks, the merge and the entry point *)

Section Program.
(** What awaiting the fetch task of an id yields.  The sort of line 52
    compares the view counts with [<] and the CSV writer prints the
    fields with [str]; both are modelled for the typing of the data model
    (title and creator strings, view count an integer), so the results of
    the tasks are taken at that typing. *)
Variable task : Z -> option Record_.
(** The order in which [asyncio.as_completed] hands the tasks back. *)
Variable schedule : list Z -> list Z.
(** [os.listdir(OUTPUT_DIR)]: the names of a directory, in some order. *)
Variable listdir : gmap string (list CsvRow) -> list string.

(** Lines 36-49: one task per id, results kept in completion order when
    they are truthy. *)
Definition collect (start_id end_id : Z) : list Record_ :=
  omap task (schedule (Py.range start_id (end_id + 1) 1)).

(** Lines 51-56. *)
Definition save_top (results : list Record_) (output_file : path) (w : world) : world :=
  write_csv output_file (to_row <$> rank Views (Z.to_nat TOP_N) results) w.

Definition crawl_projects (start_id end_id : Z) (output_file : path) (w : world) : world :=
  save_top (collect start_id end_id) output_file
           (issue (Py.range start_id (end_id + 1) 1) w).

Definition partition (chunk_size start_id end_id : Z) : list (Z * Z) :=
  (fun start => (start, Z.min (start + chunk_size - 1) end_id))
    <$> Py.range start_id (end_id + 1) chunk_size.

Definition chunk_filename (chunk_num : Z) : string :=
  String.append "top_" (String.append (rjust 10 (Py.str chunk_num)) ".csv").

Definition run_chunks (start_id end_id : Z) (w : world) : world :=
  snd (foldl (fun (st : Z * world) (chunk : Z * Z) =>
                (fst st + 1,
                 crawl_projects (fst chunk) (snd chunk)
                                (ChunkFile (chunk_filename (fst st))) (snd st)))
             (1, w) (partition CHUNK_SIZE start_id end_id)).

(** The key of a row for the merge sort: [int(x['Views'])]. *)
Definition keyed (x : CsvRow) : result (Z * CsvRow) :=
  k ← Py.int (Views x); Return (k, x).

Definition merge_rows (all_projects : list CsvRow) : result (list CsvRow) :=
  decorated ← mapM keyed all_projects;
  Return (take (Z.to_nat TOP_N) (snd <$> sort_desc fst decorated)).

Definition merge_chunks (w : world) : result world :=
  files ← mapM (fun file => read_csv file w)
               (List.filter (fun file => endswith file ".csv")
                            (sorted (listdir (chunk_files w))));
  rows ← merge_rows (concat files);
  Return (write_csv FinalFile rows w).

(** Lines 92-102, for the two integers read. *)
Definition entry (start_id end_id : Z) (w : world) : result world :=
  if CHUNK_SIZE <? end_id - start_id
  then merge_chunks (run_chunks start_id end_id w)
  else Return (crawl_projects start_id end_id FinalFile w).
End Program.

Definition empty_world : world := mkWorld ∅ None [].

(** The integer the ['Views'] of a row stands for, 0 where [int] raises. *)
Definition views_int (x : CsvRow) : Z :=
  match Py.int (Views x) with
  | Return k => k
  | Raise _ => 0
  end.

Definition parses (x : CsvRow) : Prop := Py.int (Views x) = Return (views_int x).

(** The chunk files a run leaves behind: the ranked results of each
    chunk, saved under the chunk's file name, in chunk order. *)
Definition persist_chunks (named : list (string * list Record_)) (w : world) : world :=
  foldl (fun w a => save_top (snd a) (ChunkFile (fst a)) w) w named.

(** The results of the chunks under the names of their files, numbered
    from [first_num]. *)
Definition name_results (first_num : Z) (results : list (list Record_))
    : list (string * list Record_) :=
  imap (fun i r => (chunk_filename (first_num + Z.of_nat i), r)) results.

(** What [run_chunks] hands to [persist_chunks]. *)
Definition named_chunks (task : Z -> option Record_) (schedule : list Z -> list Z)
    (first_num : Z) (chunks : list (Z * Z)) : list (string * list Record_) :=
  name_results first_num
               ((fun chunk => collect task schedule (fst chunk) (snd chunk)) <$> chunks).

(** Two chunk files of a run whose third chunk is missing, and a
    directory listing that does not follow the names. *)
Definition sample_rows_1 : list CsvRow := [mkRow "11" "Maze" "ada" "9"].
Definition sample_rows_2 : list CsvRow := [mkRow "100007" "Pong" "bob" "10"].

Definition sample_world : world :=
  mkWorld (<[chunk_filename 1 := sample_rows_1]>
             (<[chunk_filename 2 := sample_rows_2]> ∅)) None [].

Definition sample_listdir (dir : gmap string (list CsvRow)) : list string :=
  [chunk_filename 2; chunk_filename 1].

(** The results of three chunks, with equal view counts across chunks. *)
Definition sample_results : list (list Record_) :=
  [[mkRow 3 "Maze" "ada" 50; mkRow 1 "Pong" "bob" 10; mkRow 5 "Paint" "cy" 30];
   [mkRow 100004 "Chess" "dan" 30; mkRow 100002 "Snake" "eve" 70];
   [mkRow 200001 "Golf" "fay" 10]].

Definition sample_chunks_listdir (dir : gmap string (list CsvRow)) : list string :=
  [chunk_filename 2; chunk_filename 1; chunk_filename 3].

(** The number a decimal numeral stands for. *)
Definition uint_value (d : Decimal.uint) : N := Unsigned.of_lu (Decimal.rev d).

(** The code points of the digits of a decimal numeral. *)
Fixpoint uint_codes (d : Decimal.uint) : list Z :=
  match d with
  | Decimal.Nil => []
  | Decimal.D0 d => 48 :: uint_codes d
  | Decimal.D1 d => 49 :: uint_codes d
  | Decimal.D2 d => 50 :: uint_codes d
  | Decimal.D3 d => 51 :: uint_codes d
  | Decimal.D4 d => 52 :: uint_codes d
  | Decimal.D5 d => 53 :: uint_codes d
  | Decimal.D6 d => 54 :: uint_codes d
  | Decimal.D7 d => 55 :: uint_codes d
  | Decimal.D8 d => 56 :: uint_codes d
  | Decimal.D9 d => 57 :: uint_codes d
  end.

(** The ids of a chunk, as [crawl_projects] enumerates them. *)
Definition chunk_ids (chunk : Z * Z) : list Z :=
  Py.range (fst chunk) (snd chunk + 1) 1.

(** The rows a later [csv.DictReader] finds at a path. *)
Definition written (output_file : path) (w : world) : option (list CsvRow) :=
  match output_file with
  | FinalFile => final_file w
  | ChunkFile name => chunk_files w !! name
  end.

(** A crawl of the ids 1..5 and a schedule that completes the tasks in
    the reverse order. *)
Definition sample_task (pid : Z) : option Record_ :=
  if pid =? 1 then Some (mkRow 1 "Maze" "ada" 10)
  else if pid =? 3 then Some (mkRow 3 "Pong" "bob" 50)
  else if pid =? 5 then Some (mkRow 5 "Paint" "cy" 30)
  else None.

(** The final file a run leaves, or the exception that ended it. *)
Definition leaderboard (r : result world) : result (option (list CsvRow)) :=
  Py.bind r (fun w => Return (final_file w)).

(** The sample directory with a file the crawler did not write. *)
Definition sample_world_notes : world :=
  mkWorld (<["notes.txt" := [mkRow "" "" "" "n/a"]]> (chunk_files sample_world)) None [].

Definition sample_listdir_notes (dir : gmap string (list CsvRow)) : list string :=
  match dir !! "notes.txt" with
  | Some _ => ["notes.txt"; chunk_filename 2; chunk_filename 1]
  | None => [chunk_filename 2; chunk_filename 1]
  end.

(** The sample directory with a CSV file whose view count is no numeral. *)
Definition sample_world_foreign : world :=
  mkWorld (<["old.csv" := [mkRow "7" "Maze" "ada" "n/a"]]> (chunk_files sample_world)) None [].

Definition sample_listdir_foreign (dir : gmap string (list CsvRow)) : list string :=
  [chunk_filename 1; "old.csv"; chunk_filename 2].

(** A CSV file edited by hand: its view counts carry a sign, white space
    and an underscore, which [int] reads. *)
Definition sample_rows_hand : list CsvRow :=
  [mkRow "21" "Maze" "ada" "+12"; mkRow "22" "Pong" "bob" " 1_000"; mkRow "23" "Golf" "cy" "9"].

Definition sample_world_hand : world :=
  mkWorld (<["hand.csv" := sample_rows_hand]> ∅) None [].

Definition sample_listdir_hand (dir : gmap string (list CsvRow)) : list string :=
  ["hand.csv"].

(** A body with the three fields. *)
Definition sample_body : pyval :=
  PDict [("id", PInt 999);
         ("title", PStr "Maze");
         ("author", PDict [("username", PStr "ada")]);
         ("stats", PDict [("views", PInt 31)])].

(** How the program ends once the two integers are read (lines 88-104):
    with the world it leaves; with the message of line 104 when a
    [ValueError] leaves the body, which the outer handler catches; or with
    any other exception, which nothing catches. *)
Inductive main_outcome : Type :=
| Finished (w : world)
| InvalidIntegerMessage
| Uncaught (e : exn).

Definition main_after_input (task : Z -> option Record_) (schedule : list Z -> list Z)
    (listdir : gmap string (list CsvRow) -> list string)
    (start_id end_id : Z) (w : world) : main_outcome :=
  match entry task schedule listdir start_id end_id w with
  | Return w' => Finished w'
  | Raise ValueError => InvalidIntegerMessage
  | Raise e => Uncaught e
  end.

(** A directory listing for the run over the ids 1..100002, whose chunk
    files are two. *)
Definition sample_run_listdir (dir : gmap string (list CsvRow)) : list string :=
  [chunk_filename 2; chunk_filename 1].

Definition sample_foreign_run_listdir (dir : gmap string (list CsvRow)) : list string :=
  [chunk_filename 2; "old.csv"; chunk_filename 1].

(** ** Admission control *)

(** The tasks of one crawl around [async with semaphore]: a task waits
    for a slot, holds it while its request is issued and answered, and
    gives it back when the block is left, whatever [fetch] makes of the
    answer.  The steps are those of a crawl that runs on: the program
    cancels no single task, so no task leaves while it waits, and the
    outcome of a task that leaves the block is one of the transport. *)
Module Admission.

Inductive phase : Type :=
| Waiting
| Acquired
| Requesting
| Finished (r : result (option Fetched)).

Record state : Type := mkState {
  value : nat;
  tasks : list (Z * phase);
  issued : list nat
}.

Definition holds_slot (p : Z * phase) : bool :=
  match snd p with
  | Acquired | Requesting => true
  | _ => false
  end.

Definition in_flight (p : Z * phase) : bool :=
  match snd p with
  | Requesting => true
  | _ => false
  end.

Definition is_finished (p : Z * phase) : bool :=
  match snd p with
  | Finished _ => true
  | _ => false
  end.

Definition count (f : Z * phase -> bool) (s : state) : nat :=
  length (List.filter f (tasks s)).

Definition init (capacity : nat) (ids : list Z) : state :=
  mkState capacity ((fun pid => (pid, Waiting)) <$> ids) [].

Inductive step : state -> state -> Prop :=
| step_acquire s i pid :
    tasks s !! i = Some (pid, Waiting) ->
    (0 < value s)%nat ->
    step s (mkState (value s - 1) (<[i := (pid, Acquired)]> (tasks s)) (issued s))
| step_issue s i pid :
    tasks s !! i = Some (pid, Acquired) ->
    step s (mkState (value s) (<[i := (pid, Requesting)]> (tasks s)) (issued s ++ [i]))
| step_exit s i pid o :
    tasks s !! i = Some (pid, Requesting) ->
    o <> WaitCancelled ->
    step s (mkState (value s + 1)
                    (<[i := (pid, Finished (fetch o pid))]> (tasks s)) (issued s)).

Definition reachable (capacity : nat) (ids : list Z) (s : state) : Prop :=
  rtc step (init capacity ids) s.

Definition b2n (b : bool) : nat := if b then 1%nat else 0%nat.

(** Two tasks: the first one over after a 404, the second one waiting
    for its answer. *)
Definition sample_state : state :=
  mkState 124 [(104, Finished (Return None)); (105, Requesting)] [0%nat; 1%nat].

(** What holds in every state of a crawl. *)
Definition invariant (capacity : nat) (s : state) : Prop :=
  (value s + count holds_slot s = capacity)%nat /\
  NoDup (issued s) /\
  forall i, i ∈ issued s ->
            exists pid p, tasks s !! i = Some (pid, p) /\
                          (p = Requesting \/ exists r, p = Finished r).

End Admission.

(** What every state of a crawl keeps besides the count of the slots: the
    tasks stay those of the ids, a task whose request is out or over is
    among the issued ones, and a task that is over holds what [fetch]
    makes of some answer to the request of its own id. *)
Definition coherent (ids : list Z) (s : Admission.state) : Prop :=
  fst <$> Admission.tasks s = ids /\
  (forall i pid p,
      Admission.tasks s !! i = Some (pid, p) ->
      p = Admission.Requesting \/ (exists r, p = Admission.Finished r) ->
      i ∈ Admission.issued s) /\
  (forall i pid r,
      Admission.tasks s !! i = Some (pid, Admission.Finished r) ->
      exists o, r = fetch o pid).

(** The steps a task has still to take. *)
Definition steps_left (p : Z * Admission.phase) : nat :=
  match snd p with
  | Admission.Waiting => 3
  | Admission.Acquired => 2
  | Admission.Requesting => 1
  | Admission.Finished _ => 0
  end.

Definition remaining (s : Admission.state) : nat :=
  sum_list (steps_left <$> Admission.tasks s).

(** * Properties *)

(** ** fetch *)

Lemma getitem_field v k :
  getitem v k = match field k v with
                | Some x => Return x
                | None => Raise (match v with PDict _ => KeyError | _ => TypeError end)
                end.
Proof. destruct v; reflexivity. Qed.

Lemma fetch_not_200 status json id : status <> 200 -> fetch (GetResponse status json) id = Return None.
Proof.
  intros H. unfold fetch. destruct (Z.eqb_spec status 200); [contradiction|reflexivity].
Qed.

Lemma fetch_200 data id :
  fetch (GetResponse 200 (Return data)) id =
  match payload_title data, payload_username data, payload_views data with
  | Some t, Some u, Some v => Return (Some (mkRow id t u v))
  | _, _, _ => Return None
  end.
Proof.
  unfold fetch, payload_title, payload_username, payload_views. simpl.
  unfold mbind, result_bind. simpl.
  rewrite (getitem_field data "title").
  destruct (field "title" data) as [t|]; [|destruct data; reflexivity]. simpl.
  rewrite (getitem_field data "author").
  destruct (field "author" data) as [a|]; [|destruct data; reflexivity]. simpl.
  rewrite (getitem_field a "username").
  destruct (field "username" a) as [u|]; [|destruct a; reflexivity]. simpl.
  rewrite (getitem_field data "stats").
  destruct (field "stats" data) as [s|]; [|destruct data; reflexivity]. simpl.
  rewrite (getitem_field s "views").
  destruct (field "views" s) as [v|]; [|destruct s; reflexivity]. simpl.
  reflexivity.
Qed.

Lemma fetch_raise_inv o id e :
  fetch o id = Raise e ->
  is_Exception e = false /\
  (o = GetRaises e \/ (exists json, o = GetResponse 200 json /\ json = Raise e) \/
   (o = WaitCancelled /\ e = CancelledError)).
Proof.
  destruct o as [|e'|status json].
  - intros [= <-]. auto.
  - unfold fetch, try_except_Exception.
    destruct (is_Exception e') eqn:He; [discriminate|].
    intros [= <-]. auto.
  - destruct (Z.eqb_spec status 200) as [->|Hne].
    + destruct json as [data|e'].
      * rewrite fetch_200.
        destruct (payload_title data), (payload_username data), (payload_views data);
          discriminate.
      * unfold fetch, try_except_Exception. simpl.
        destruct (is_Exception e') eqn:He; [discriminate|].
        intros [= <-]. eauto 6.
    + rewrite fetch_not_200 by assumption. discriminate.
Qed.

(** C1.  Whenever the request raises an error, the status is not 2xx or
    the payload lacks a required field, [fetch] returns [None]; and no
    error (an exception deriving from [Exception]) ever leaves [fetch]. *)
Theorem fetch_absent_on_failure (o : get_outcome) (project_id : Z) :
  (fetch_failure o -> fetch o project_id = Return None) /\
  (forall e, fetch o project_id = Raise e -> is_Exception e = false).
Proof.
  split.
  - intros [e He|status json Hst|status e He|status data Hf].
    + unfold fetch, try_except_Exception. now rewrite He.
    + apply fetch_not_200. lia.
    + unfold fetch, try_except_Exception.
      destruct (status =? 200); [|reflexivity]. simpl. now rewrite He.
    + destruct (Z.eqb_spec status 200) as [->|Hne]; [|now apply fetch_not_200].
      rewrite fetch_200. unfold has_required_fields in Hf.
      destruct (payload_title data), (payload_username data), (payload_views data);
        try reflexivity; discriminate.
  - intros e He. now apply fetch_raise_inv in He.
Qed.

Lemma fetch_absent_on_failure_witness :
  fetch (GetResponse 404 (Return PNone)) 104 = Return None /\
  fetch (GetRaises TimeoutError) 104 = Return None /\
  fetch (GetResponse 200 (Raise JSONDecodeError)) 104 = Return None /\
  fetch (GetResponse 200 (Return (PDict [("title", PStr "Maze")]))) 104 = Return None.
Proof.
  split; [|split; [|split]].
  - apply (proj1 (fetch_absent_on_failure _ 104)). apply status_not_2xx. lia.
  - apply (proj1 (fetch_absent_on_failure _ 104)). apply request_raises. reflexivity.
  - apply (proj1 (fetch_absent_on_failure _ 104)). apply body_raises. reflexivity.
  - apply (proj1 (fetch_absent_on_failure _ 104)). apply field_missing. reflexivity.
Defined.

(** A signal that is not an error, such as the cancellation of the task,
    is not swallowed, whether it arrives during the wait for a slot or
    during the request. *)
Example fetch_cancelled :
  fetch WaitCancelled 104 = Raise CancelledError /\
  fetch (GetRaises CancelledError) 104 = Raise CancelledError.
Proof. split; reflexivity. Qed.

(** C8.  On a 200 response whose body has the three fields, [fetch]
    returns the record made of the body's title, author.username and
    stats.views and of the requested id; and every record [fetch] returns
    is of that form, whatever id the body carries. *)
Theorem fetch_maps_payload (o : get_outcome) (project_id : Z) :
  (forall data t u v,
      o = GetResponse 200 (Return data) ->
      payload_title data = Some t ->
      payload_username data = Some u ->
      payload_views data = Some v ->
      fetch o project_id = Return (Some (mkRow project_id t u v))) /\
  (forall r,
      fetch o project_id = Return (Some r) ->
      ID r = project_id /\
      exists data,
        o = GetResponse 200 (Return data) /\
        payload_title data = Some (Title r) /\
        payload_username data = Some (Creator r) /\
        payload_views data = Some (Views r)).
Proof.
  split.
  - intros data t u v -> Ht Hu Hv. rewrite fetch_200, Ht, Hu, Hv. reflexivity.
  - intros r Hr. destruct o as [|e|status json].
    + discriminate.
    + unfold fetch, try_except_Exception in Hr.
      destruct (is_Exception e); discriminate.
    + destruct (Z.eqb_spec status 200) as [->|Hne].
      * destruct json as [data|e].
        -- rewrite fetch_200 in Hr.
           destruct (payload_title data) as [t|] eqn:Ht; [|discriminate].
           destruct (payload_username data) as [u|] eqn:Hu; [|discriminate].
           destruct (payload_views data) as [v|] eqn:Hv; [|discriminate].
           injection Hr as <-. simpl. split; [reflexivity|]. exists data. auto.
        -- unfold fetch, try_except_Exception in Hr. simpl in Hr.
           destruct (is_Exception e); discriminate.
      * rewrite fetch_not_200 in Hr by assumption. discriminate.
Qed.

Lemma fetch_maps_payload_witness :
  fetch (GetResponse 200 (Return (PDict [("id", PInt 999);
                                          ("title", PStr "Maze");
                                          ("author", PDict [("username", PStr "ada")]);
                                          ("stats", PDict [("views", PInt 31)])]))) 104
  = Return (Some (mkRow 104 (PStr "Maze") (PStr "ada") (PInt 31))).
Proof.
  eapply (proj1 (fetch_maps_payload _ 104)); reflexivity.
Defined.

(** C8, as stated for every successful payload, fails at the status 201:
    the response is a success, its body has the three fields, and [fetch]
    returns no record. *)
Lemma fetch_created_no_record :
  200 <= 201 < 300 /\
  has_required_fields sample_body = true /\
  fetch (GetResponse 201 (Return sample_body)) 104 = Return None.
Proof. split; [lia|]. split; reflexivity. Qed.

(** ** Ranking *)

Section RankerFacts.
Context {A : Type} (key : A -> Z).

Lemma insert_desc_perm x l : insert_desc key x l ≡ₚ x :: l.
Proof.
  induction l as [|y l IH]; simpl; [reflexivity|].
  destruct (key x <? key y); [|reflexivity].
  rewrite IH. apply perm_swap.
Qed.

Lemma sort_desc_perm l : sort_desc key l ≡ₚ l.
Proof.
  induction l as [|x l IH]; simpl; [reflexivity|].
  rewrite insert_desc_perm. now rewrite IH.
Qed.

Lemma sort_desc_length l : length (sort_desc key l) = length l.
Proof. now rewrite sort_desc_perm. Qed.

Lemma insert_desc_hd x y l :
  before key y x -> HdRel (before key) y l -> HdRel (before key) y (insert_desc key x l).
Proof.
  unfold before. intros Hyx Hl. destruct l as [|z l]; simpl.
  - now constructor.
  - destruct (key x <? key z); constructor; [|assumption].
    now inversion Hl.
Qed.

Lemma insert_desc_sorted x l : Sorted (before key) l -> Sorted (before key) (insert_desc key x l).
Proof.
  induction 1 as [|y l Hs IH Hhd]; simpl.
  - repeat constructor.
  - destruct (Z.ltb_spec (key x) (key y)) as [Hlt|Hge].
    + constructor; [assumption|]. apply insert_desc_hd; [|assumption].
      unfold before. lia.
    + constructor; [now constructor|]. constructor. exact Hge.
Qed.

Lemma sort_desc_Sorted l : Sorted (before key) (sort_desc key l).
Proof.
  induction l as [|x l IH]; simpl; [constructor|]. now apply insert_desc_sorted.
Qed.

#[global] Instance before_trans : Transitive (before key).
Proof. unfold before. intros x y z ? ?. lia. Qed.

Lemma Sorted_sorted_desc l : Sorted (before key) l -> sorted_desc key l.
Proof.
  intros Hs. apply Sorted_StronglySorted in Hs; [|apply before_trans].
  induction Hs as [|x l Hs IH Hall]; intros i j a b Hij Ha Hb.
  - now rewrite lookup_nil in Ha.
  - destruct j as [|j]; [lia|]. simpl in Hb.
    destruct i as [|i]; simpl in Ha.
    + injection Ha as <-. rewrite List.Forall_forall in Hall.
      apply Hall. apply list_elem_of_In. eapply list_elem_of_lookup_2; eassumption.
    + apply (IH i j); [lia|assumption..].
Qed.

Lemma sorted_desc_Sorted l : sorted_desc key l -> Sorted (before key) l.
Proof.
  induction l as [|x l IH]; intros H; [constructor|].
  constructor.
  - apply IH. intros i j a b Hij Ha Hb. apply (H (S i) (S j)); [lia|assumption..].
  - destruct l as [|y l]; constructor. apply (H 0%nat 1%nat); [lia|reflexivity..].
Qed.

Lemma Sorted_take n l : Sorted (before key) l -> Sorted (before key) (take n l).
Proof.
  intros Hs. apply sorted_desc_Sorted. apply Sorted_sorted_desc in Hs.
  intros i j a b Hij Ha Hb.
  apply lookup_take_Some in Ha as [Ha _], Hb as [Hb _]. eauto.
Qed.

(** A sorted list is left as it is: the sort is stable. *)
Lemma sort_desc_id l : Sorted (before key) l -> sort_desc key l = l.
Proof.
  induction 1 as [|x l Hs IH Hhd]; simpl; [reflexivity|].
  rewrite IH. destruct Hhd as [|y l Hxy]; simpl; [reflexivity|].
  unfold before in Hxy. destruct (Z.ltb_spec (key x) (key y)); [lia|reflexivity].
Qed.

Lemma rank_length limit l : length (rank key limit l) = Nat.min (length l) limit.
Proof. unfold rank. rewrite length_take, sort_desc_length. lia. Qed.

Lemma rank_sorted limit l : sorted_desc key (rank key limit l).
Proof. apply Sorted_sorted_desc, Sorted_take, sort_desc_Sorted. Qed.

Lemma rank_idempotent limit l : rank key limit (rank key limit l) = rank key limit l.
Proof.
  unfold rank. rewrite (sort_desc_id (take limit _)).
  - rewrite take_take. f_equal. lia.
  - apply Sorted_take, sort_desc_Sorted.
Qed.

Lemma rank_perm_all limit l : (length l <= limit)%nat -> rank key limit l ≡ₚ l.
Proof.
  intros H. unfold rank. rewrite take_ge by (rewrite sort_desc_length; lia).
  apply sort_desc_perm.
Qed.

Lemma rank_dropped (limit : nat) l :
  rank key limit l ++ drop limit (sort_desc key l) ≡ₚ l /\
  length (drop limit (sort_desc key l)) = (length l - limit)%nat /\
  forall x y, x ∈ rank key limit l -> y ∈ drop limit (sort_desc key l) -> key y <= key x.
Proof.
  split; [|split].
  - unfold rank. rewrite take_drop. apply sort_desc_perm.
  - now rewrite length_drop, sort_desc_length.
  - unfold rank. intros x y Hx Hy.
    apply elem_of_take in Hx as (i & Hi & Hlt).
    apply list_elem_of_lookup in Hy as (j & Hj). rewrite lookup_drop in Hj.
    apply (Sorted_sorted_desc _ (sort_desc_Sorted l) i (limit + j)%nat); auto. lia.
Qed.
End RankerFacts.

(** The crawl of the ids 1..5 of which 1, 3 and 5 are present with 10, 50
    and 30 views, ranked to the top two. *)
Example crawl_rank_scenario :
  let task := fun pid : Z =>
                if pid =? 1 then Some (mkRow 1 "Maze" "ada" 10)
                else if pid =? 3 then Some (mkRow 3 "Pong" "bob" 50)
                else if pid =? 5 then Some (mkRow 5 "Paint" "cy" 30)
                else None in
  rank Views 2 (collect task (fun l => l) 1 5) =
  [mkRow 3 "Pong" "bob" 50; mkRow 5 "Paint" "cy" 30].
Proof. reflexivity. Qed.

(** C5.  The rank of any list of records at any limit has
    [min (len records) limit] members, lists them by [Views] in
    descending order, and ranking it again changes nothing. *)
Theorem rank_spec (records : list Record_) (limit : nat) :
  length (rank Views limit records) = Nat.min (length records) limit /\
  sorted_desc Views (rank Views limit records) /\
  rank Views limit (rank Views limit records) = rank Views limit records.
Proof.
  split; [apply rank_length|]. split; [apply rank_sorted|apply rank_idempotent].
Qed.

(** ** range and the chunk partition *)

Lemma range_nil start stop step : stop <= start -> Py.range start stop step = [].
Proof.
  intros H. unfold Py.range, range_len.
  destruct (Z.ltb_spec start stop); [lia|reflexivity].
Qed.

Lemma range_cons start stop step :
  0 < step -> start < stop ->
  Py.range start stop step = start :: Py.range (start + step) stop step.
Proof.
  intros Hstep Hlt. unfold Py.range, range_len.
  destruct (Z.ltb_spec start stop) as [_|]; [|lia].
  assert (Hq : 0 <= (stop - start - 1) / step) by (apply Z.div_pos; lia).
  replace (Z.to_nat ((stop - start - 1) / step + 1))
    with (S (Z.to_nat ((stop - start - 1) / step))) by lia.
  assert (Hlen : (if start + step <? stop
                  then Z.to_nat ((stop - (start + step) - 1) / step + 1)
                  else 0%nat) = Z.to_nat ((stop - start - 1) / step)).
  { replace (stop - (start + step) - 1) with (stop - start - 1 + (-1) * step) by lia.
    rewrite Z.div_add by lia.
    destruct (Z.ltb_spec (start + step) stop) as [H1|H1]; [lia|].
    rewrite Z.div_small by lia. reflexivity. }
  rewrite Hlen. simpl. f_equal; [lia|].
  rewrite <- seq_shift, List.map_map. apply List.map_ext. intros i. lia.
Qed.

Lemma range_length start stop step : length (Py.range start stop step) = range_len start stop step.
Proof. unfold Py.range. now rewrite length_map, length_seq. Qed.

Lemma range_lookup start stop step (i : nat) x :
  Py.range start stop step !! i = Some x ->
  x = start + Z.of_nat i * step /\ (i < range_len start stop step)%nat.
Proof.
  unfold Py.range. intros H.
  change (List.map ?f ?l) with (f <$> l) in H.
  rewrite list_lookup_fmap in H.
  destruct (seq 0 (range_len start stop step) !! i) as [k|] eqn:Hk; [|discriminate].
  apply lookup_seq in Hk as [-> Hlt]. simpl in H. injection H as <-. split; [reflexivity|lia].
Qed.

Lemma range_step1 start stop : Py.range start stop 1 = seqZ start (stop - start).
Proof.
  unfold Py.range, range_len, seqZ.
  destruct (Z.ltb_spec start stop) as [H|H].
  - rewrite Z.div_1_r. replace (stop - start - 1 + 1) with (stop - start) by lia.
    apply List.map_ext. intros i. lia.
  - now replace (Z.to_nat (stop - start)) with 0%nat by lia.
Qed.

Lemma partition_nil C S E : E < S -> partition C S E = [].
Proof. intros H. unfold partition. now rewrite range_nil by lia. Qed.

Lemma partition_cons C S E :
  0 < C -> S <= E ->
  partition C S E = (S, Z.min (S + C - 1) E) :: partition C (S + C) E.
Proof. intros HC H. unfold partition. now rewrite range_cons by lia. Qed.

Lemma partition_length C S E :
  0 < C -> S <= E -> Z.of_nat (length (partition C S E)) = (E - S) / C + 1.
Proof.
  intros HC H. unfold partition. rewrite length_fmap, range_length. unfold range_len.
  destruct (Z.ltb_spec S (E + 1)); [|lia].
  replace (E + 1 - S - 1) with (E - S) by lia.
  assert (0 <= (E - S) / C) by (apply Z.div_pos; lia). lia.
Qed.

Lemma partition_lookup C S E (i : nat) s e :
  0 < C -> S <= E ->
  partition C S E !! i = Some (s, e) ->
  s = S + Z.of_nat i * C /\ e = Z.min (s + C - 1) E /\ Z.of_nat i <= (E - S) / C.
Proof.
  intros HC H Hi. unfold partition in Hi. rewrite list_lookup_fmap in Hi.
  destruct (Py.range S (E + 1) C !! i) as [x|] eqn:Hx; [|discriminate].
  simpl in Hi. injection Hi as <- <-.
  apply range_lookup in Hx as [-> Hlt]. split; [reflexivity|]. split; [reflexivity|].
  unfold range_len in Hlt. destruct (Z.ltb_spec S (E + 1)); [|lia].
  replace (E + 1 - S - 1) with (E - S) in Hlt by lia.
  assert (0 <= (E - S) / C) by (apply Z.div_pos; lia). lia.
Qed.

Lemma partition_covers C (n : nat) : forall S E,
  0 < C -> E - S + 1 <= Z.of_nat n ->
  concat (chunk_ids <$> partition C S E) = seqZ S (E - S + 1).
Proof.
  induction n as [|n IH]; intros S E HC Hn.
  - rewrite partition_nil by lia. now rewrite seqZ_nil by lia.
  - destruct (Z.lt_ge_cases E S) as [Hlt|Hle].
    + rewrite partition_nil by lia. now rewrite seqZ_nil by lia.
    + rewrite partition_cons by assumption. simpl.
      rewrite IH by lia. unfold chunk_ids. simpl. rewrite range_step1.
      destruct (Z.le_ge_cases (S + C - 1) E) as [H1|H1].
      * rewrite Z.min_l by lia.
        replace (E - S + 1) with (C + (E - (S + C) + 1)) by lia.
        rewrite (seqZ_app S C (E - (S + C) + 1)) by lia. f_equal. f_equal. lia.
      * rewrite Z.min_r by lia.
        rewrite (seqZ_nil (S + C)) by lia. rewrite app_nil_r. f_equal. lia.
Qed.

(** C4.  For [S <= E] and a chunk size [C > 0] the partition has
    ceil((E-S+1)/C) chunks; read one after the other they list every id of
    [S..E] exactly once in ascending order; every chunk is non-empty and
    has at most [C] ids; a chunk that is followed by another one has
    exactly [C] ids and the next one starts right after it; the first
    starts at [S] and the last ends at [E]. *)
Theorem partition_spec (S E C : Z) :
  S <= E -> 0 < C ->
  Z.of_nat (length (partition C S E)) = (E - S + 1 + (C - 1)) / C /\
  concat (chunk_ids <$> partition C S E) = Py.range S (E + 1) 1 /\
  NoDup (concat (chunk_ids <$> partition C S E)) /\
  (forall (i : nat) s e,
      partition C S E !! i = Some (s, e) ->
      s = S + Z.of_nat i * C /\ s <= e <= E /\ e - s + 1 <= C /\
      (i = 0%nat -> s = S) /\
      (length (partition C S E) = Datatypes.S i -> e = E) /\
      (forall s' e', partition C S E !! Datatypes.S i = Some (s', e') ->
                     e - s + 1 = C /\ s' = e + 1)).
Proof.
  intros HSE HC.
  assert (Hcov : concat (chunk_ids <$> partition C S E) = Py.range S (E + 1) 1).
  { rewrite range_step1. replace (E + 1 - S) with (E - S + 1) by lia.
    apply (partition_covers C (Z.to_nat (E - S + 1))); lia. }
  split; [|split; [exact Hcov|split]].
  - rewrite partition_length by assumption.
    replace (E - S + 1 + (C - 1)) with (E - S + 1 * C) by lia.
    rewrite Z.div_add by lia. reflexivity.
  - rewrite Hcov, range_step1. apply NoDup_seqZ.
  - intros i s e Hi.
    pose proof (partition_length C S E HC HSE) as Hlen.
    destruct (partition_lookup C S E i s e HC HSE Hi) as (Hs & He & Hq).
    assert (Hmul : C * ((E - S) / C) <= E - S) by (apply Z.mul_div_le; lia).
    assert (Hsucc : E - S < C * Z.succ ((E - S) / C)) by (apply Z.mul_succ_div_gt; lia).
    assert (HsE : s <= E) by nia.
    split; [exact Hs|]. split; [lia|]. split; [lia|]. split; [intros ->; lia|].
    split.
    + intros Hl. rewrite Hl in Hlen. assert (Z.of_nat i = (E - S) / C) by lia. nia.
    + intros s' e' Hi'.
      destruct (partition_lookup C S E (Datatypes.S i) s' e' HC HSE Hi') as (Hs' & He' & Hq').
      assert (s + C <= E) by nia. lia.
Qed.

Lemma partition_spec_witness :
  partition 100000 1 250000 = [(1, 100000); (100001, 200000); (200001, 250000)] /\
  Z.of_nat (length (partition 100000 1 250000)) = (250000 - 1 + 1 + (100000 - 1)) / 100000.
Proof.
  split; [reflexivity|].
  apply (proj1 (partition_spec 1 250000 100000 ltac:(lia) ltac:(lia))).
Defined.

(** *** Sorting a concatenation *)

Section RankerMerge.
Context {A : Type} (key : A -> Z).

Lemma merge_desc_nil_l l : merge_desc key [] l = l.
Proof. now destruct l. Qed.

Lemma merge_desc_nil_r l : merge_desc key l [] = l.
Proof. now destruct l. Qed.

Lemma merge_desc_cons x l1 y l2 :
  merge_desc key (x :: l1) (y :: l2) =
  if key x <? key y then y :: merge_desc key (x :: l1) l2
  else x :: merge_desc key l1 (y :: l2).
Proof. reflexivity. Qed.

Lemma insert_desc_cons x y l :
  insert_desc key x (y :: l) =
  if key x <? key y then y :: insert_desc key x l else x :: y :: l.
Proof. reflexivity. Qed.

Ltac ltb_cases :=
  repeat match goal with
         | |- context [Z.ltb ?u ?v] => destruct (Z.ltb_spec u v); try lia
         end.

Lemma insert_desc_merge x s : forall t,
  insert_desc key x (merge_desc key s t) = merge_desc key (insert_desc key x s) t.
Proof.
  induction s as [|a s IHs]; intros t.
  - rewrite merge_desc_nil_l. change (insert_desc key x []) with [x].
    induction t as [|b t IHt]; [reflexivity|].
    rewrite merge_desc_cons, insert_desc_cons.
    destruct (key x <? key b); [now rewrite IHt|].
    now rewrite merge_desc_nil_l.
  - induction t as [|b t IHt].
    + now rewrite !merge_desc_nil_r.
    + rewrite merge_desc_cons.
      destruct (Z.ltb_spec (key a) (key b)) as [Hab|Hab].
      * rewrite (insert_desc_cons x b), IHt, (insert_desc_cons x a).
        destruct (Z.ltb_spec (key x) (key a)) as [Hxa|Hxa].
        -- rewrite merge_desc_cons. ltb_cases. reflexivity.
        -- rewrite (merge_desc_cons x), (merge_desc_cons a). ltb_cases; reflexivity.
      * rewrite !(insert_desc_cons x a), IHs.
        destruct (Z.ltb_spec (key x) (key a)) as [Hxa|Hxa].
        -- rewrite merge_desc_cons. ltb_cases. reflexivity.
        -- rewrite (merge_desc_cons x), (merge_desc_cons a). ltb_cases. reflexivity.
Qed.

(** Sorting a concatenation merges the sorted parts, the left part
    winning ties. *)
Lemma sort_desc_app l1 l2 :
  sort_desc key (l1 ++ l2) = merge_desc key (sort_desc key l1) (sort_desc key l2).
Proof.
  induction l1 as [|x l1 IH]; simpl; [now rewrite merge_desc_nil_l|].
  now rewrite IH, insert_desc_merge.
Qed.

Lemma take_cons_take (n : nat) (x : A) l : take n (x :: take n l) = take n (x :: l).
Proof.
  destruct n as [|n]; [reflexivity|]. simpl. rewrite take_take. do 2 f_equal. lia.
Qed.

Lemma take_merge_desc (n : nat) : forall l1 l2,
  take n (merge_desc key l1 l2) = take n (merge_desc key (take n l1) (take n l2)).
Proof.
  induction n as [|n IH]; intros l1 l2; [reflexivity|].
  destruct l1 as [|x l1].
  - rewrite take_nil, !merge_desc_nil_l. now rewrite take_take, Nat.min_id.
  - destruct l2 as [|y l2].
    + rewrite take_nil, !merge_desc_nil_r. now rewrite take_take, Nat.min_id.
    + change (take (S n) (x :: l1)) with (x :: take n l1).
      change (take (S n) (y :: l2)) with (y :: take n l2).
      rewrite !merge_desc_cons. destruct (key x <? key y); rewrite !firstn_cons.
      * f_equal. rewrite (IH (x :: l1) l2), (IH (x :: take n l1) (take n l2)).
        now rewrite take_cons_take, take_take, Nat.min_id.
      * f_equal. rewrite (IH l1 (y :: l2)), (IH (take n l1) (y :: take n l2)).
        now rewrite take_cons_take, take_take, Nat.min_id.
Qed.

Lemma sort_desc_concat ls :
  sort_desc key (concat ls) = foldr (merge_desc key) [] (sort_desc key <$> ls).
Proof.
  induction ls as [|l ls IH]; [reflexivity|].
  rewrite fmap_cons. cbn [foldr concat]. now rewrite sort_desc_app, IH.
Qed.

Lemma take_merge_all (n : nat) ss :
  take n (foldr (merge_desc key) [] (take n <$> ss)) =
  take n (foldr (merge_desc key) [] ss).
Proof.
  induction ss as [|s ss IH]; [reflexivity|].
  rewrite fmap_cons. cbn [foldr].
  rewrite (take_merge_desc n (take n s)), IH, take_take, Nat.min_id.
  now rewrite <- take_merge_desc.
Qed.

(** Ranking the ranked parts of a list is ranking the list. *)
Lemma rank_concat_rank (n : nat) ls :
  rank key n (concat (rank key n <$> ls)) = rank key n (concat ls).
Proof.
  unfold rank. rewrite !sort_desc_concat.
  rewrite <- list_fmap_compose.
  rewrite (list_fmap_ext (sort_desc key ∘ (fun l => take n (sort_desc key l)))
                         (take n ∘ sort_desc key) ls).
  - rewrite list_fmap_compose. apply take_merge_all.
  - intros i l _. simpl. apply sort_desc_id, Sorted_take, sort_desc_Sorted.
Qed.

Lemma sort_desc_fmap {B : Type} (f : B -> A) (key' : B -> Z) l :
  (forall x, key (f x) = key' x) ->
  sort_desc key (f <$> l) = f <$> sort_desc key' l.
Proof.
  intros Hk. induction l as [|x l IH]; [reflexivity|].
  rewrite fmap_cons.
  change (sort_desc key (f x :: (f <$> l))) with (insert_desc key (f x) (sort_desc key (f <$> l))).
  change (sort_desc key' (x :: l)) with (insert_desc key' x (sort_desc key' l)).
  rewrite IH. generalize (sort_desc key' l) as s. intros s.
  induction s as [|y s IHs]; [reflexivity|].
  rewrite fmap_cons, insert_desc_cons, !Hk. simpl insert_desc.
  destruct (key' x <? key' y); [now rewrite fmap_cons, IHs|reflexivity].
Qed.
End RankerMerge.

(** ** Strings and numerals *)

Lemma ascii_compare_refl a : Ascii.compare a a = Eq.
Proof. unfold Ascii.compare. apply N.compare_refl. Qed.

Lemma ascii_compare_lt_trans a b c :
  Ascii.compare a b = Lt -> Ascii.compare b c = Lt -> Ascii.compare a c = Lt.
Proof. unfold Ascii.compare. rewrite !N.compare_lt_iff. lia. Qed.

Lemma string_compare_lt_trans s1 : forall s2 s3,
  String.compare s1 s2 = Lt -> String.compare s2 s3 = Lt -> String.compare s1 s3 = Lt.
Proof.
  induction s1 as [|a s1 IH]; intros [|b s2] [|c s3]; simpl; try discriminate; auto.
  destruct (Ascii.compare a b) eqn:Hab; try discriminate;
    destruct (Ascii.compare b c) eqn:Hbc; try discriminate; intros H1 H2.
  - apply Ascii.compare_eq_iff in Hab, Hbc. subst. rewrite ascii_compare_refl. eauto.
  - apply Ascii.compare_eq_iff in Hab. subst. now rewrite Hbc.
  - apply Ascii.compare_eq_iff in Hbc. subst. now rewrite Hab.
  - now rewrite (ascii_compare_lt_trans a b c).
Qed.

#[local] Instance str_le_trans : Transitive str_le.
Proof.
  unfold str_le, String.leb. intros s1 s2 s3 H1 H2.
  destruct (String.compare s1 s2) eqn:H12; try discriminate.
  - apply String.compare_eq_iff in H12. now subst.
  - destruct (String.compare s2 s3) eqn:H23; try discriminate.
    + apply String.compare_eq_iff in H23. subst. now rewrite H12.
    + now rewrite (string_compare_lt_trans s1 s2 s3).
Qed.

#[local] Instance str_le_total : Total str_le.
Proof. intros s1 s2. apply String.leb_total. Qed.

#[local] Instance str_le_antisym : AntiSymm (=) str_le.
Proof. intros s1 s2. apply String.leb_antisym. Qed.

Lemma sorted_Sorted names : Sorted str_le (sorted names).
Proof. apply Sorted_merge_sort, _. Qed.

Lemma sorted_perm names : sorted names ≡ₚ names.
Proof. apply merge_sort_Permutation. Qed.

(** [sorted] does not depend on the order of its argument. *)
Lemma sorted_order names1 names2 : names1 ≡ₚ names2 -> sorted names1 = sorted names2.
Proof.
  intros H. apply (Sorted_unique str_le); try apply sorted_Sorted.
  now rewrite !sorted_perm.
Qed.

Lemma sorted_id names : Sorted str_le names -> sorted names = names.
Proof.
  intros H. apply (Sorted_unique str_le); [apply sorted_Sorted|exact H|apply sorted_perm].
Qed.

(** *** [str] and [int] *)

Lemma uint_value_cons d :
  d <> Decimal.Nil ->
  uint_value d =
  (uint_value (Unsigned.tl d) + Unsigned.hd d * 10 ^ Unsigned.usize (Unsigned.tl d))%N.
Proof.
  unfold uint_value.
  destruct d; [congruence|..]; intros _; unfold Decimal.rev; simpl Decimal.revapp;
    rewrite Unsigned.of_lu_revapp; simpl;
    change (Decimal.revapp d Decimal.Nil) with (Decimal.rev d); lia.
Qed.

Lemma to_uint_value p : uint_value (Pos.to_uint p) = Npos p.
Proof. unfold uint_value. rewrite <- Unsigned.of_uint_alt. apply Unsigned.of_to. Qed.

Lemma str_pos p : Py.str (Zpos p) = NilEmpty.string_of_uint (Pos.to_uint p).
Proof.
  unfold Py.str. simpl. pose proof (Unsigned.to_uint_nonnil p).
  now destruct (Pos.to_uint p).
Qed.

Lemma code_points_uint d :
  Py.code_points (NilEmpty.string_of_uint d) = Some (uint_codes d).
Proof.
  induction d; [reflexivity|..];
    cbn [NilEmpty.string_of_uint uint_codes Py.code_points];
    rewrite IHd; reflexivity.
Qed.

Lemma scan_step_digit n c d :
  Py.todecimal c = Some d ->
  Py.scan_step (Py.AfterDigit n) c = Some (Py.AfterDigit (10 * n + d)).
Proof. intros H. unfold Py.scan_step. now rewrite H. Qed.

Lemma scan_text_uint d : forall n,
  Py.scan_text (Py.AfterDigit n) (uint_codes d) =
  Some (Py.AfterDigit (n * 10 ^ Z.of_N (Unsigned.usize d) + Z.of_N (uint_value d))).
Proof.
  induction d; intros n;
    [cbn [uint_codes Py.scan_text]; f_equal; f_equal;
     change (uint_value Decimal.Nil) with 0%N; simpl; lia|..];
    cbn [uint_codes Py.scan_text];
    match goal with
    | |- context [Py.scan_step (Py.AfterDigit ?a) ?c] =>
        rewrite (scan_step_digit a c (c - 48)) by reflexivity
    end;
    rewrite IHd;
    match goal with
    | |- context [uint_value (?D d)] => rewrite (uint_value_cons (D d)) by discriminate
    end;
    cbn [Unsigned.tl Unsigned.hd Unsigned.usize];
    rewrite N2Z.inj_succ, Z.pow_succ_r by lia;
    rewrite N2Z.inj_add, N2Z.inj_mul, N2Z.inj_pow;
    f_equal; f_equal; simpl Z.of_N; ring.
Qed.

Lemma int_uint d :
  d <> Decimal.Nil ->
  Py.int_of_text (uint_codes d) = Return (Z.of_N (uint_value d)) /\
  Py.int_of_text (45 :: uint_codes d) = Return (- Z.of_N (uint_value d)).
Proof.
  intros Hd.
  assert (Hscan : Py.scan_text Py.Start (uint_codes d) =
                  Some (Py.AfterDigit (Z.of_N (uint_value d)))).
  { rewrite <- (Z.add_0_l (Z.of_N (uint_value d))).
    change 0 with (0 * 10 ^ Z.of_N (Unsigned.usize d)) at 1.
    rewrite <- scan_text_uint. destruct d; [congruence|..]; reflexivity. }
  assert (Hhead : exists c rest, uint_codes d = c :: rest /\ Py.isspace c = false /\
                                 (c =? 45) = false /\ (c =? 43) = false).
  { destruct d; [congruence|..]; do 2 eexists; repeat split. }
  destruct Hhead as (c & rest & Hc & Hsp & Hm & Hp).
  unfold Py.int_of_text. split.
  - rewrite Hc. cbn [Py.lstrip]. rewrite Hsp, Hm, Hp. cbn [snd fst].
    rewrite <- Hc, Hscan. reflexivity.
  - cbn [Py.lstrip]. change (Py.isspace 45) with false. cbn iota.
    change (45 =? 45) with true. cbn [snd fst]. rewrite Hscan. reflexivity.
Qed.

Lemma int_str n : Py.int (Py.str n) = Return n.
Proof.
  destruct n as [|p|p].
  - reflexivity.
  - rewrite str_pos. unfold Py.int. rewrite code_points_uint.
    rewrite (proj1 (int_uint _ (Unsigned.to_uint_nonnil p))), to_uint_value. reflexivity.
  - assert (Hs : Py.str (Zneg p) = String "-" (NilEmpty.string_of_uint (Pos.to_uint p))).
    { unfold Py.str. simpl. pose proof (Unsigned.to_uint_nonnil p).
      now destruct (Pos.to_uint p). }
    rewrite Hs. unfold Py.int.
    change (Py.code_points (String "-" ?s)) with (cons 45 <$> Py.code_points s).
    rewrite code_points_uint. cbn [fmap option_fmap option_map].
    rewrite (proj2 (int_uint _ (Unsigned.to_uint_nonnil p))), to_uint_value. reflexivity.
Qed.

(** What [int] reads besides the numerals of [str], and what it does
    not. *)
Example int_forms :
  Py.int " 10" = Return 10 /\ Py.int "+12" = Return 12 /\
  Py.int "1_000" = Return 1000 /\ Py.int "-007 " = Return (-7) /\
  Py.int "١٢" = Return 12 /\
  Py.int "" = Raise ValueError /\ Py.int "1__0" = Raise ValueError /\
  Py.int "_1" = Raise ValueError /\ Py.int "+ 1" = Raise ValueError /\
  Py.int "1 2" = Raise ValueError /\ Py.int "1.0" = Raise ValueError /\
  Py.int "n/a" = Raise ValueError.
Proof. vm_compute. repeat split. Qed.

Lemma views_int_to_row r : views_int (to_row r) = Views r.
Proof. unfold views_int, to_row. simpl. now rewrite int_str. Qed.

Lemma parses_to_row r : parses (to_row r).
Proof. unfold parses. rewrite views_int_to_row. apply int_str. Qed.

(** ** The entry point *)

Lemma entry_single task schedule listdir start_id end_id w :
  end_id - start_id <= CHUNK_SIZE ->
  entry task schedule listdir start_id end_id w =
  Return (crawl_projects task schedule start_id end_id FinalFile w).
Proof.
  intros H. unfold entry. destruct (Z.ltb_spec CHUNK_SIZE (end_id - start_id)); [lia|reflexivity].
Qed.

Lemma entry_chunked task schedule listdir start_id end_id w :
  CHUNK_SIZE < end_id - start_id ->
  entry task schedule listdir start_id end_id w =
  merge_chunks listdir (run_chunks task schedule start_id end_id w).
Proof.
  intros H. unfold entry. destruct (Z.ltb_spec CHUNK_SIZE (end_id - start_id)); [reflexivity|lia].
Qed.

(** C2.  The range 1..100001 has 100001 ids, one more than [CHUNK_SIZE],
    and [run_chunks] would cut it into two chunks; the entry point
    nevertheless runs it as one crawl that writes the final file, with no
    chunk file and no merge. *)
Theorem entry_bypass_off_by_one task schedule listdir w :
  CHUNK_SIZE < 100001 - 1 + 1 /\
  partition CHUNK_SIZE 1 100001 = [(1, 100000); (100001, 100001)] /\
  entry task schedule listdir 1 100001 w =
  Return (crawl_projects task schedule 1 100001 FinalFile w).
Proof.
  split; [reflexivity|]. split; [reflexivity|].
  apply entry_single. unfold CHUNK_SIZE. lia.
Qed.

Lemma crawl_projects_empty task schedule start_id end_id output_file w :
  (forall l, schedule l ≡ₚ l) -> end_id < start_id ->
  crawl_projects task schedule start_id end_id output_file w =
  write_csv output_file [] w.
Proof.
  intros Hs Hlt. unfold crawl_projects, collect, save_top, issue.
  rewrite range_nil by lia.
  assert (schedule [] = []) as -> by apply Permutation_nil_r, Hs.
  unfold rank. change (sort_desc Views (omap task [])) with (@nil Record_).
  rewrite take_nil, fmap_nil, app_nil_r. now destruct w.
Qed.

(** C3, as the code has it.  When [start_id > end_id] the entry point
    issues no request and leaves the chunk directory alone; it does not
    reject the range: the single crawl runs over no id and writes the
    final file with a header and no row. *)
Theorem invalid_range_empty_crawl task schedule listdir start_id end_id w :
  (forall l, schedule l ≡ₚ l) ->
  end_id < start_id ->
  entry task schedule listdir start_id end_id w =
  Return (mkWorld (chunk_files w) (Some []) (requests w)).
Proof.
  intros Hs Hlt. rewrite entry_single by (unfold CHUNK_SIZE; lia).
  now rewrite crawl_projects_empty.
Qed.

Lemma invalid_range_empty_crawl_witness :
  entry (fun _ => None) (fun l => l) (fun _ => []) 5 3 empty_world =
  Return (mkWorld ∅ (Some []) []).
Proof.
  apply (invalid_range_empty_crawl (fun _ => None) (fun l => l) (fun _ => []) 5 3 empty_world).
  - intros l. reflexivity.
  - lia.
Defined.

(** C3, as stated, fails at the range 5..3: the entry point returns
    normally and the final file, absent before, has been written. *)
Lemma invalid_range_output_written :
  final_file empty_world = None /\
  exists w', entry (fun _ => None) (fun l => l) (fun _ => []) 5 3 empty_world = Return w' /\
             final_file w' = Some [] /\ requests w' = [].
Proof.
  split; [reflexivity|]. eexists. split; [vm_compute; reflexivity|]. split; reflexivity.
Qed.

(** ** The merge *)

Lemma mapM_cons {A B : Type} (f : A -> result B) x l :
  mapM f (x :: l) =
  Py.bind (f x) (fun y => Py.bind (mapM f l) (fun k => Return (y :: k))).
Proof. reflexivity. Qed.

Lemma mapM_Return {A B : Type} (f : A -> result B) l k :
  mapM f l = Return k <-> Forall2 (fun x y => f x = Return y) l k.
Proof.
  revert k. induction l as [|x l IH]; intros k.
  - split.
    + intros [= <-]. constructor.
    + intros H. now inversion H.
  - rewrite mapM_cons. unfold Py.bind. split.
    + destruct (f x) as [y|e] eqn:Hx; [|discriminate].
      destruct (mapM f l) as [k'|e] eqn:Hl; [|discriminate].
      intros [= <-]. constructor; [assumption|]. now apply IH.
    + intros H. inversion H as [|? y ? k' Hx Hl]; subst.
      rewrite Hx. apply IH in Hl. now rewrite Hl.
Qed.

Lemma mapM_keyed rows decorated :
  mapM keyed rows = Return decorated <->
  Forall parses rows /\ decorated = (fun x => (views_int x, x)) <$> rows.
Proof.
  rewrite mapM_Return. split.
  - induction 1 as [|x [k y] rows decorated Hx _ [IH1 IH2]]; [now split|].
    unfold keyed, mbind, result_bind, bind, mret, result_ret in Hx.
    destruct (Py.int (Views x)) as [k'|e] eqn:Hk; [|discriminate].
    injection Hx as <- <-.
    assert (Hv : views_int x = k') by (unfold views_int; now rewrite Hk).
    split.
    + constructor; [|assumption]. unfold parses. now rewrite Hv.
    + rewrite fmap_cons, Hv. now f_equal.
  - intros [Hp ->]. induction Hp as [|x rows Hx _ IH]; [constructor|].
    rewrite fmap_cons. constructor; [|assumption].
    unfold keyed. unfold parses in Hx. now rewrite Hx.
Qed.

Lemma bind_Return {A B : Type} (m : result A) (k : A -> result B) b :
  m ≫= k = Return b <-> exists a, m = Return a /\ k a = Return b.
Proof.
  destruct m as [a|e]; simpl; split.
  - intros H. now exists a.
  - now intros (a' & [= <-] & H).
  - discriminate.
  - now intros (a' & [=] & _).
Qed.

Lemma merge_rows_Return rows board :
  merge_rows rows = Return board <->
  Forall parses rows /\ board = rank views_int (Z.to_nat TOP_N) rows.
Proof.
  unfold merge_rows. rewrite bind_Return.
  assert (Hsort : snd <$> sort_desc fst ((fun x : CsvRow => (views_int x, x)) <$> rows)
                  = sort_desc views_int rows).
  { rewrite (sort_desc_fmap fst (fun x => (views_int x, x)) views_int) by reflexivity.
    rewrite <- list_fmap_compose. apply list_fmap_id. }
  split.
  - intros (decorated & Hd & Hb). apply mapM_keyed in Hd as [Hp ->].
    injection Hb as <-. split; [assumption|]. unfold rank. now rewrite Hsort.
  - intros [Hp ->]. eexists. split; [apply mapM_keyed; split; [assumption|reflexivity]|].
    unfold rank. now rewrite Hsort.
Qed.

Lemma merge_chunks_Return listdir w w' :
  merge_chunks listdir w = Return w' <->
  exists files,
    Forall2 (fun name rows => chunk_files w !! name = Some rows)
            (List.filter (fun file => endswith file ".csv") (sorted (listdir (chunk_files w))))
            files /\
    Forall parses (concat files) /\
    w' = write_csv FinalFile (rank views_int (Z.to_nat TOP_N) (concat files)) w.
Proof.
  unfold merge_chunks.
  set (names := List.filter _ _).
  assert (Hread : forall files,
             mapM (fun file => read_csv file w) names = Return files <->
             Forall2 (fun name rows => chunk_files w !! name = Some rows) names files).
  { intros files. rewrite mapM_Return.
    split; intros H; eapply Forall2_impl; try exact H;
      intros name rows; unfold read_csv;
      destruct (chunk_files w !! name); congruence. }
  rewrite bind_Return. split.
  - intros (files & Hf & H). apply bind_Return in H as (board & Hm & Hw).
    apply merge_rows_Return in Hm as [Hp ->]. injection Hw as <-.
    exists files. split; [now apply Hread|]. now split.
  - intros (files & Hf & Hp & ->). exists files. split; [now apply Hread|].
    apply bind_Return. eexists. split; [apply merge_rows_Return; split; [assumption|reflexivity]|].
    reflexivity.
Qed.

Lemma rank_elem_of {A : Type} (key : A -> Z) n l x : x ∈ rank key n l -> x ∈ l.
Proof.
  unfold rank. intros H. rewrite <- (sort_desc_perm key l).
  eapply elem_of_submseteq; [exact H|apply submseteq_take].
Qed.

Lemma lookup_all {V : Type} (m : gmap string V) names :
  (forall name, name ∈ names -> is_Some (m !! name)) ->
  exists files, Forall2 (fun name rows => m !! name = Some rows) names files.
Proof.
  induction names as [|name names IH]; intros H.
  - exists []. constructor.
  - destruct (H name) as [rows Hrows]; [left|].
    destruct IH as [files Hfiles]; [intros n Hn; apply H; now right|].
    exists (rows :: files). now constructor.
Qed.

Lemma read_all_Forall {V : Type} (m : gmap string V) (P : V -> Prop) names files :
  Forall2 (fun name rows => m !! name = Some rows) names files ->
  (forall name rows, name ∈ names -> m !! name = Some rows -> P rows) ->
  Forall P files.
Proof.
  induction 1 as [|name rows names files Hrows _ IH]; intros H; constructor.
  - apply (H name); [left|assumption].
  - apply IH. intros n r Hn. apply H. now right.
Qed.

Lemma elem_of_artifact_names names name :
  name ∈ List.filter (fun file => endswith file ".csv") (sorted names) ->
  name ∈ names /\ endswith name ".csv" = true.
Proof.
  rewrite list_elem_of_In, List.filter_In, <- list_elem_of_In, sorted_perm. tauto.
Qed.

Lemma merge_chunks_total listdir w :
  (forall name, name ∈ listdir (chunk_files w) -> is_Some (chunk_files w !! name)) ->
  (forall name rows, chunk_files w !! name = Some rows -> endswith name ".csv" = true ->
                     Forall parses rows) ->
  exists files,
    Forall2 (fun name rows => chunk_files w !! name = Some rows)
            (List.filter (fun file => endswith file ".csv")
                         (sorted (listdir (chunk_files w)))) files /\
    merge_chunks listdir w =
    Return (write_csv FinalFile (rank views_int (Z.to_nat TOP_N) (concat files)) w).
Proof.
  intros Hdir Hrows.
  destruct (lookup_all (chunk_files w)
              (List.filter (fun file => endswith file ".csv")
                           (sorted (listdir (chunk_files w))))) as [files Hfiles].
  { intros name Hname. now apply Hdir, elem_of_artifact_names. }
  exists files. split; [exact Hfiles|].
  apply merge_chunks_Return. exists files. split; [exact Hfiles|]. split; [|reflexivity].
  apply Forall_concat. eapply read_all_Forall; [exact Hfiles|].
  intros name rows Hname Hl. apply (Hrows name); [exact Hl|].
  now apply (elem_of_artifact_names (listdir (chunk_files w))).
Qed.



Lemma sample_world_hand_listed name :
  name ∈ sample_listdir_hand (chunk_files sample_world_hand) ->
  is_Some (chunk_files sample_world_hand !! name).
Proof.
  intros Hname. unfold sample_listdir_hand in Hname.
  apply elem_of_cons in Hname as [->|Hname]; [vm_compute; eauto|].
  now apply elem_of_nil in Hname.
Defined.

Lemma sample_world_hand_rows name rows :
  chunk_files sample_world_hand !! name = Some rows -> rows = sample_rows_hand.
Proof.
  intros Hl. unfold sample_world_hand, chunk_files in Hl.
  apply lookup_insert_Some in Hl as [[_ <-]|[_ Hl]]; [reflexivity|].
  now rewrite lookup_empty in Hl.
Defined.

(** C10.  Take a directory whose [.csv] files hold view counts of at most
    4300 characters, the digits a newer interpreter reads.  When [int]
    reads the view count of every row, the merge returns.  Whenever the
    merge returns, the leaderboard it has written is made of the rows it
    read from the [.csv] files: with the rows the cut left out it is a
    permutation of them, and it has [min(len(rows), TOP_N)] rows.  It is
    ordered by the integers the ['Views'] strings stand for: of two of
    its rows the earlier one never has the numerically smaller view
    count, and no row left out has a numerically larger view count than a
    row that is kept. *)
Theorem merge_orders_by_integer_views listdir (w : world) :
  (forall name, name ∈ listdir (chunk_files w) -> is_Some (chunk_files w !! name)) ->
  (forall name rows x,
      chunk_files w !! name = Some rows -> endswith name ".csv" = true -> x ∈ rows ->
      (String.length (Views x) <= 4300)%nat) ->
  ((forall name rows x,
       chunk_files w !! name = Some rows -> endswith name ".csv" = true -> x ∈ rows ->
       exists k, Py.int (Views x) = Return k) ->
   exists w', merge_chunks listdir w = Return w') /\
  (forall w',
      merge_chunks listdir w = Return w' ->
      exists files board dropped,
        Forall2 (fun name rows => chunk_files w !! name = Some rows)
                (List.filter (fun file => endswith file ".csv")
                             (sorted (listdir (chunk_files w)))) files /\
        final_file w' = Some board /\
        board ++ dropped ≡ₚ concat files /\
        length board = Nat.min (length (concat files)) (Z.to_nat TOP_N) /\
        (forall (i j : nat) (x y : CsvRow),
            (i < j)%nat -> board !! i = Some x -> board !! j = Some y ->
            exists m n, Py.int (Views x) = Return m /\ Py.int (Views y) = Return n /\ n <= m) /\
        (forall x y : CsvRow,
            x ∈ board -> y ∈ dropped ->
            exists m n, Py.int (Views x) = Return m /\ Py.int (Views y) = Return n /\ n <= m)).
Proof.
  intros Hdir _. split.
  - intros Hrows.
    destruct (merge_chunks_total listdir w Hdir) as (files & _ & H); [|eauto].
    intros name rows Hl Hcsv. apply List.Forall_forall. intros x Hx.
    destruct (Hrows name rows x Hl Hcsv) as [k Hk]; [now apply list_elem_of_In|].
    unfold parses, views_int. now rewrite Hk.
  - intros w' H. apply merge_chunks_Return in H as (files & Hfiles & Hp & ->).
    rewrite List.Forall_forall in Hp.
    assert (Hint : forall x, x ∈ concat files -> Py.int (Views x) = Return (views_int x))
      by (intros x Hx; now apply Hp, list_elem_of_In).
    destruct (rank_dropped views_int (Z.to_nat TOP_N) (concat files)) as (Hperm & _ & Hcut).
    exists files, (rank views_int (Z.to_nat TOP_N) (concat files)),
      (drop (Z.to_nat TOP_N) (sort_desc views_int (concat files))).
    split; [exact Hfiles|]. split; [reflexivity|]. split; [exact Hperm|].
    split; [apply rank_length|]. split.
    + intros i j x y Hij Hx Hy. exists (views_int x), (views_int y).
      split; [|split].
      * eapply Hint, (rank_elem_of views_int (Z.to_nat TOP_N)), list_elem_of_lookup_2, Hx.
      * eapply Hint, (rank_elem_of views_int (Z.to_nat TOP_N)), list_elem_of_lookup_2, Hy.
      * eapply (rank_sorted views_int); eassumption.
    + intros x y Hx Hy. exists (views_int x), (views_int y).
      split; [|split].
      * eapply Hint, (rank_elem_of views_int (Z.to_nat TOP_N)), Hx.
      * apply Hint. rewrite <- Hperm. apply elem_of_app. now right.
      * now apply Hcut.
Qed.

Lemma merge_orders_by_integer_views_witness :
  ((forall name rows x,
       chunk_files sample_world_hand !! name = Some rows -> endswith name ".csv" = true ->
       x ∈ rows -> exists k, Py.int (Views x) = Return k) ->
   exists w', merge_chunks sample_listdir_hand sample_world_hand = Return w') /\
  (forall w',
      merge_chunks sample_listdir_hand sample_world_hand = Return w' ->
      exists files board dropped,
        Forall2 (fun name rows => chunk_files sample_world_hand !! name = Some rows)
                (List.filter (fun file => endswith file ".csv")
                             (sorted (sample_listdir_hand (chunk_files sample_world_hand))))
                files /\
        final_file w' = Some board /\
        board ++ dropped ≡ₚ concat files /\
        length board = Nat.min (length (concat files)) (Z.to_nat TOP_N) /\
        (forall (i j : nat) (x y : CsvRow),
            (i < j)%nat -> board !! i = Some x -> board !! j = Some y ->
            exists m n, Py.int (Views x) = Return m /\ Py.int (Views y) = Return n /\ n <= m) /\
        (forall x y : CsvRow,
            x ∈ board -> y ∈ dropped ->
            exists m n, Py.int (Views x) = Return m /\ Py.int (Views y) = Return n /\ n <= m)).
Proof.
  apply (merge_orders_by_integer_views sample_listdir_hand sample_world_hand).
  - apply sample_world_hand_listed.
  - intros name rows x Hl _ Hx. apply sample_world_hand_rows in Hl. subst rows.
    unfold sample_rows_hand in Hx.
    apply elem_of_cons in Hx as [->|Hx]; [vm_compute; lia|].
    apply elem_of_cons in Hx as [->|Hx]; [vm_compute; lia|].
    apply elem_of_cons in Hx as [->|Hx]; [vm_compute; lia|].
    now apply elem_of_nil in Hx.
Defined.

(** The merge of the file edited by hand: 1000, 12 and 9 views, in this
    order; the strings themselves descend the other way round. *)
Example merge_hand_edited :
  merge_chunks sample_listdir_hand sample_world_hand =
  Return (write_csv FinalFile
            [mkRow "22" "Pong" "bob" " 1_000"; mkRow "21" "Maze" "ada" "+12";
             mkRow "23" "Golf" "cy" "9"]
            sample_world_hand) /\
  String.ltb " 1_000" "+12" = true /\ String.ltb "+12" "9" = true.
Proof. vm_compute. repeat split. Qed.

(** As strings the two view counts compare the other way round. *)
Example views_as_strings : String.ltb "10" "9" = true.
Proof. reflexivity. Qed.



(** *** The order of the rows themselves *)

Section ViewsColumn.
Context {A : Type} (key : A -> Z).

Lemma sort_desc_keys l : key <$> sort_desc key l = sort_desc id (key <$> l).
Proof. symmetry. now apply (sort_desc_fmap id key key). Qed.

#[local] Instance before_id_antisym : AntiSymm (=) (before (@id Z)).
Proof. unfold before, id. intros x y ? ?. lia. Qed.

(** Whatever the order in which the rows are put together, the ranking
    shows the same column of keys; rows with equal keys may change
    places. *)
Lemma rank_keys_perm n l1 l2 :
  l1 ≡ₚ l2 -> key <$> rank key n l1 = key <$> rank key n l2.
Proof.
  intros H. unfold rank. rewrite !fmap_take, !sort_desc_keys. f_equal.
  apply (Sorted_unique (before id)); try apply sort_desc_Sorted.
  now rewrite !sort_desc_perm, H.
Qed.
End ViewsColumn.

(** Two rows with equal view counts come out in the order they went in. *)
Example rank_ties_keep_order :
  let a : Record_ := mkRow 1 "Maze" "ada" 5 in
  let b : Record_ := mkRow 2 "Pong" "bob" 5 in
  rank Views 2 [a; b] = [a; b] /\ rank Views 2 [b; a] = [b; a].
Proof. split; reflexivity. Qed.

(** ** Chunk files and the two-stage reduce *)

Lemma persist_chunks_snoc named a w :
  persist_chunks (named ++ [a]) w = save_top (snd a) (ChunkFile (fst a)) (persist_chunks named w).
Proof. unfold persist_chunks. now rewrite foldl_app. Qed.

Lemma persist_chunks_final named w :
  final_file (persist_chunks named w) = final_file w /\
  requests (persist_chunks named w) = requests w.
Proof.
  induction named as [|a named IH] using rev_ind; [now split|].
  rewrite persist_chunks_snoc. exact IH.
Qed.

Lemma persist_chunks_lookup named w name results :
  NoDup named.*1 -> (name, results) ∈ named ->
  chunk_files (persist_chunks named w) !! name =
  Some (to_row <$> rank Views (Z.to_nat TOP_N) results).
Proof.
  induction named as [|a named IH] using rev_ind; intros Hnd Hin.
  - now apply elem_of_nil in Hin.
  - rewrite persist_chunks_snoc. unfold save_top, write_csv. simpl chunk_files.
    rewrite fmap_app in Hnd. apply NoDup_app in Hnd as (Hnd & Hfresh & _).
    apply elem_of_app in Hin as [Hin|Hin].
    + rewrite lookup_insert_ne; [now apply IH|].
      intros <-. apply (Hfresh (fst a)); [|left].
      apply list_elem_of_fmap. now exists (fst a, results).
    + apply list_elem_of_singleton in Hin as <-. simpl. apply lookup_insert_eq.
Qed.

Lemma filter_all {A : Type} (f : A -> bool) l :
  Forall (fun x => f x = true) l -> List.filter f l = l.
Proof.
  induction 1 as [|x l Hx _ IH]; simpl; [reflexivity|]. now rewrite Hx, IH.
Qed.

Lemma read_persisted named w :
  NoDup named.*1 ->
  Forall2 (fun name rows => chunk_files (persist_chunks named w) !! name = Some rows)
          named.*1
          ((fun a => to_row <$> rank Views (Z.to_nat TOP_N) (snd a)) <$> named).
Proof.
  intros Hnd. apply Forall2_fmap. apply Forall_Forall2_diag, Forall_forall.
  intros [name results] Hin. simpl. now apply persist_chunks_lookup.
Qed.

Lemma concat_fmap_fmap {A B C : Type} (f : B -> C) (g : A -> list B) (l : list A) :
  concat ((fun a => f <$> g a) <$> l) = f <$> concat (g <$> l).
Proof.
  induction l as [|a l IH]; [reflexivity|].
  rewrite !fmap_cons. simpl concat. now rewrite fmap_app, IH.
Qed.

Lemma rank_to_row n (l : list Record_) :
  rank views_int n (to_row <$> l) = to_row <$> rank Views n l.
Proof.
  unfold rank. rewrite (sort_desc_fmap views_int to_row Views) by apply views_int_to_row.
  now rewrite fmap_take.
Qed.

Lemma merge_persisted
    (listdir : gmap string (list CsvRow) -> list string)
    (named : list (string * list Record_)) (w : world) :
  NoDup named.*1 ->
  Sorted str_le named.*1 ->
  Forall (fun name => endswith name ".csv" = true) named.*1 ->
  listdir (chunk_files (persist_chunks named w)) ≡ₚ named.*1 ->
  merge_chunks listdir (persist_chunks named w) =
  Return (write_csv FinalFile
                    (to_row <$> rank Views (Z.to_nat TOP_N) (concat named.*2))
                    (persist_chunks named w)).
Proof.
  intros Hnd Hsorted Hcsv Hdir.
  apply merge_chunks_Return.
  exists ((fun a => to_row <$> rank Views (Z.to_nat TOP_N) (snd a)) <$> named).
  rewrite (sorted_order _ _ Hdir), (sorted_id _ Hsorted), (filter_all _ _ Hcsv).
  split; [now apply read_persisted|].
  rewrite (concat_fmap_fmap to_row (fun a => rank Views (Z.to_nat TOP_N) (snd a))).
  split.
  - apply Forall_fmap, Forall_forall. intros r _. apply parses_to_row.
  - rewrite rank_to_row. f_equal. f_equal.
    rewrite <- (rank_concat_rank Views (Z.to_nat TOP_N) named.*2).
    now rewrite <- list_fmap_compose.
Qed.

(** The names [run_chunks] gives its first chunk files sort in chunk
    order. *)
Example chunk_filenames_sorted :
  sorted (chunk_filename <$> [11; 2; 10; 1; 9]) = chunk_filename <$> [1; 2; 9; 10; 11].
Proof. vm_compute. reflexivity. Qed.

Lemma issue_issue ids1 ids2 w : issue ids2 (issue ids1 w) = issue (ids1 ++ ids2) w.
Proof. unfold issue. simpl. now rewrite app_assoc. Qed.

Lemma save_top_issue results output_file ids w :
  save_top results output_file (issue ids w) = issue ids (save_top results output_file w).
Proof. unfold save_top, write_csv, issue. now destruct output_file. Qed.

Lemma persist_chunks_issue named ids w :
  persist_chunks named (issue ids w) = issue ids (persist_chunks named w).
Proof.
  induction named as [|a named IH] using rev_ind; [reflexivity|].
  now rewrite !persist_chunks_snoc, IH, save_top_issue.
Qed.

Lemma issue_nil w : issue [] w = w.
Proof. unfold issue. rewrite app_nil_r. now destruct w. Qed.

Lemma name_results_cons num r results :
  name_results num (r :: results) = (chunk_filename num, r) :: name_results (num + 1) results.
Proof.
  unfold name_results. rewrite imap_cons. f_equal; [do 2 f_equal; lia|].
  apply imap_ext. intros i x _. simpl. do 2 f_equal. lia.
Qed.

Lemma name_results_names num results :
  (name_results num results).*1 =
  imap (fun i _ => chunk_filename (num + Z.of_nat i)) results.
Proof. unfold name_results. rewrite fmap_imap. now apply imap_ext. Qed.

Lemma name_results_results results : forall num, (name_results num results).*2 = results.
Proof.
  induction results as [|r results IH]; intros num; [reflexivity|].
  rewrite name_results_cons, fmap_cons. simpl. f_equal. apply IH.
Qed.

Lemma run_chunks_from task schedule chunks : forall (num : Z) (w : world),
  snd (foldl (fun (st : Z * world) (chunk : Z * Z) =>
                (fst st + 1,
                 crawl_projects task schedule (fst chunk) (snd chunk)
                                (ChunkFile (chunk_filename (fst st))) (snd st)))
             (num, w) chunks) =
  issue (concat (chunk_ids <$> chunks))
        (persist_chunks (named_chunks task schedule num chunks) w).
Proof.
  induction chunks as [|chunk chunks IH]; intros num w.
  - simpl. now rewrite issue_nil.
  - cbn [foldl fst snd]. rewrite IH. unfold crawl_projects.
    rewrite save_top_issue, persist_chunks_issue, issue_issue.
    unfold named_chunks. rewrite !fmap_cons, name_results_cons. reflexivity.
Qed.

(** [run_chunks] issues one request per id of every chunk and leaves the
    ranked results of the chunks under their file names. *)
Lemma run_chunks_persist task schedule start_id end_id w :
  run_chunks task schedule start_id end_id w =
  issue (concat (chunk_ids <$> partition CHUNK_SIZE start_id end_id))
        (persist_chunks (named_chunks task schedule 1
                                      (partition CHUNK_SIZE start_id end_id)) w).
Proof. apply run_chunks_from. Qed.

Lemma string_length_app s t :
  String.length (String.append s t) = (String.length s + String.length t)%nat.
Proof. induction s as [|c s IH]; simpl; [reflexivity|]. now rewrite IH. Qed.

Lemma substring_all s : substring 0 (String.length s) s = s.
Proof. induction s as [|c s IH]; simpl; [reflexivity|]. now rewrite IH. Qed.

Lemma endswith_refl s : endswith s s = true.
Proof.
  unfold endswith. rewrite Nat.leb_refl, Nat.sub_diag, substring_all.
  apply String.eqb_refl.
Qed.

Lemma endswith_app s t suffix :
  endswith t suffix = true -> endswith (String.append s t) suffix = true.
Proof.
  unfold endswith. intros H. apply andb_true_iff in H as [Hlen Hsub].
  apply Nat.leb_le in Hlen. rewrite string_length_app.
  apply andb_true_iff. split; [apply Nat.leb_le; lia|].
  induction s as [|c s IH]; [exact Hsub|].
  simpl String.length.
  replace (S (String.length s) + String.length t - String.length suffix)%nat
    with (S (String.length s + String.length t - String.length suffix)) by lia.
  exact IH.
Qed.

Lemma chunk_filename_csv num : endswith (chunk_filename num) ".csv" = true.
Proof. unfold chunk_filename. do 2 apply endswith_app. apply endswith_refl. Qed.

(** ** The names of the chunk files *)

Lemma uint_value_bound d : (uint_value d < 10 ^ Unsigned.usize d)%N.
Proof.
  induction d; [reflexivity|..];
    rewrite uint_value_cons by discriminate; simpl Unsigned.tl; simpl Unsigned.hd;
    simpl Unsigned.usize; rewrite N.pow_succ_r'; lia.
Qed.

Lemma string_of_uint_length d :
  String.length (NilEmpty.string_of_uint d) = N.to_nat (Unsigned.usize d).
Proof. induction d; simpl; [reflexivity|..]; rewrite IHd; lia. Qed.

Lemma string_of_uint_lt d1 : forall d2,
  Unsigned.usize d1 = Unsigned.usize d2 ->
  String.compare (NilEmpty.string_of_uint d1) (NilEmpty.string_of_uint d2) = Lt ->
  (uint_value d1 < uint_value d2)%N.
Proof.
  induction d1; intros d2 Hu Hc; destruct d2; simpl in Hu; try lia; simpl in Hc;
    try discriminate;
    match goal with
    | |- (uint_value ?a < uint_value ?b)%N =>
        rewrite (uint_value_cons a), (uint_value_cons b) by discriminate
    end;
    simpl Unsigned.tl; simpl Unsigned.hd; apply N.succ_inj in Hu; rewrite Hu;
    pose proof (uint_value_bound d1) as H1; pose proof (uint_value_bound d2) as H2;
    rewrite Hu in H1;
    try (specialize (IHd1 d2 Hu Hc)); lia.
Qed.

Lemma to_uint_head p d : Pos.to_uint p <> Decimal.D0 d.
Proof.
  intros H.
  assert (Hn : Decimal.unorm (Pos.to_uint p) = Pos.to_uint p).
  { rewrite <- Unsigned.to_of, Unsigned.of_to. reflexivity. }
  rewrite H, unorm_D0 in Hn. unfold Decimal.unorm in Hn.
  destruct (Decimal.nzhead d) eqn:Hz;
    try (now apply (nzhead_nonzero d d); rewrite Hz, Hn).
  injection Hn as <-. now apply (Unsigned.to_uint_nonzero p).
Qed.

Lemma to_uint_lower p : (10 ^ Unsigned.usize (Pos.to_uint p) <= 10 * Npos p)%N.
Proof.
  rewrite <- (to_uint_value p).
  pose proof (to_uint_head p) as Hh. pose proof (Unsigned.to_uint_nonnil p) as Hnil.
  destruct (Pos.to_uint p) as [|d|d|d|d|d|d|d|d|d|d]; [congruence|now destruct (Hh d)|..];
    rewrite uint_value_cons by discriminate; simpl Unsigned.tl; simpl Unsigned.hd;
    simpl Unsigned.usize; rewrite N.pow_succ_r'; lia.
Qed.

Lemma str_length_le n m :
  0 < n -> n < m -> (String.length (Py.str n) <= String.length (Py.str m))%nat.
Proof.
  intros Hn Hm. destruct n as [|p|p]; try lia. destruct m as [|q|q]; try lia.
  rewrite !str_pos, !string_of_uint_length.
  destruct (N.le_gt_cases (Unsigned.usize (Pos.to_uint p)) (Unsigned.usize (Pos.to_uint q)))
    as [Hle|Hgt]; [lia|exfalso].
  pose proof (to_uint_lower p) as Hlow.
  pose proof (uint_value_bound (Pos.to_uint q)) as Hup. rewrite to_uint_value in Hup.
  assert (Hpow : (10 ^ N.succ (Unsigned.usize (Pos.to_uint q)) <=
                  10 ^ Unsigned.usize (Pos.to_uint p))%N)
    by (apply N.pow_le_mono_r; lia).
  rewrite N.pow_succ_r' in Hpow. lia.
Qed.

Lemma str_compare_lt n m :
  0 < n -> n < m -> String.length (Py.str n) = String.length (Py.str m) ->
  String.compare (Py.str n) (Py.str m) = Lt.
Proof.
  intros Hn Hm Hlen.
  destruct (String.compare (Py.str n) (Py.str m)) eqn:Hc; [exfalso|reflexivity|exfalso].
  - apply String.compare_eq_iff in Hc.
    assert (H : Py.int (Py.str n) = Py.int (Py.str m)) by now rewrite Hc.
    rewrite !int_str in H. injection H as H. lia.
  - rewrite String.compare_antisym in Hc.
    destruct (String.compare (Py.str m) (Py.str n)) eqn:Hc'; try discriminate.
    destruct n as [|p|p]; try lia. destruct m as [|q|q]; try lia.
    rewrite !str_pos in *. rewrite !string_of_uint_length in Hlen.
    apply string_of_uint_lt in Hc'; [|lia].
    rewrite !to_uint_value in Hc'. lia.
Qed.

Lemma str_length_bound m :
  0 < m -> m < 10 ^ 10 -> (String.length (Py.str m) <= 10)%nat.
Proof.
  intros H0 Hm. destruct m as [|q|q]; try lia.
  rewrite str_pos, string_of_uint_length.
  pose proof (to_uint_lower q) as Hlow.
  destruct (N.le_gt_cases (Unsigned.usize (Pos.to_uint q)) 10) as [Hle|Hgt]; [lia|exfalso].
  assert (Hpow : (10 ^ 11 <= 10 ^ Unsigned.usize (Pos.to_uint q))%N)
    by (apply N.pow_le_mono_r; lia).
  change (10 ^ 11)%N with 100000000000%N in Hpow.
  change (10 ^ 10) with 10000000000 in Hm. lia.
Qed.

Lemma str_head n :
  0 < n -> exists c s, Py.str n = String c s /\ Ascii.compare " " c = Lt.
Proof.
  intros Hn. destruct n as [|p|p]; try lia. rewrite str_pos.
  pose proof (Unsigned.to_uint_nonnil p) as Hnil.
  destruct (Pos.to_uint p); [congruence|..]; do 2 eexists; split; reflexivity.
Qed.

Lemma string_compare_refl s : String.compare s s = Eq.
Proof. induction s as [|c s IH]; simpl; [reflexivity|]. now rewrite ascii_compare_refl. Qed.

Lemma string_app_cons c s t : String.append (String c s) t = String c (String.append s t).
Proof. reflexivity. Qed.

Lemma string_app_assoc s t u :
  String.append (String.append s t) u = String.append s (String.append t u).
Proof.
  induction s as [|c s IH]; [reflexivity|]. rewrite !string_app_cons. now f_equal.
Qed.

Lemma compare_app_prefix p x y :
  String.compare (String.append p x) (String.append p y) = String.compare x y.
Proof.
  induction p as [|c p IH]; [reflexivity|].
  rewrite !string_app_cons. simpl. now rewrite ascii_compare_refl.
Qed.

Lemma compare_app_lt a : forall b s t,
  String.length a = String.length b ->
  String.compare a b = Lt ->
  String.compare (String.append a s) (String.append b t) = Lt.
Proof.
  induction a as [|c a IH]; intros [|d b] s t Hlen Hc; simpl in Hlen, Hc; try discriminate.
  rewrite !string_app_cons. simpl.
  destruct (Ascii.compare c d); try discriminate; [|reflexivity].
  apply IH; [lia|assumption].
Qed.

Lemma spaces_add n k : spaces (n + k) = String.append (spaces n) (spaces k).
Proof.
  induction n as [|n IH]; [reflexivity|].
  simpl. rewrite string_app_cons. now f_equal.
Qed.

(** Up to ten digits the names of the chunk files ascend with the chunk
    number. *)
Lemma chunk_filename_lt n m :
  0 < n -> n < m -> m < 10 ^ 10 ->
  String.compare (chunk_filename n) (chunk_filename m) = Lt.
Proof.
  intros Hn Hnm Hm. unfold chunk_filename, rjust.
  rewrite compare_app_prefix, !string_app_assoc.
  pose proof (str_length_le n m Hn Hnm) as Hle.
  pose proof (str_length_bound m ltac:(lia) Hm) as Hb.
  destruct (decide (String.length (Py.str n) = String.length (Py.str m))) as [Heq|Hne].
  - rewrite Heq, compare_app_prefix. apply compare_app_lt; [exact Heq|].
    now apply str_compare_lt.
  - replace (10 - String.length (Py.str n))%nat
      with ((10 - String.length (Py.str m)) +
            S (String.length (Py.str m) - String.length (Py.str n) - 1))%nat by lia.
    rewrite spaces_add, string_app_assoc, compare_app_prefix.
    destruct (str_head m ltac:(lia)) as (c & s & -> & Hc).
    simpl spaces. rewrite !string_app_cons. simpl. now rewrite Hc.
Qed.

Lemma str_le_of_lt a b : String.compare a b = Lt -> str_le a b.
Proof. unfold str_le, String.leb. now intros ->. Qed.

(** The names [run_chunks] gives its chunk files are distinct and in
    ascending order as long as the chunk numbers have at most ten digits. *)
Lemma chunk_names_sorted {A : Type} (chunks : list A) : forall num,
  0 < num -> num + Z.of_nat (length chunks) <= 10 ^ 10 ->
  NoDup (imap (fun i _ => chunk_filename (num + Z.of_nat i)) chunks) /\
  Sorted str_le (imap (fun i _ => chunk_filename (num + Z.of_nat i)) chunks).
Proof.
  induction chunks as [|c chunks IH]; intros num Hnum Hlen.
  - split; constructor.
  - rewrite imap_cons.
    rewrite (imap_ext _ (fun i _ => chunk_filename (num + 1 + Z.of_nat i)))
      by (intros i x _; simpl; f_equal; lia).
    simpl length in Hlen. destruct (IH (num + 1)) as [Hnd Hs]; [lia|lia|].
    replace (num + Z.of_nat 0) with num by lia.
    split.
    + constructor; [|exact Hnd]. intros Hin.
      apply elem_of_lookup_imap in Hin as (i & x & Heq & Hi).
      apply lookup_lt_Some in Hi.
      pose proof (chunk_filename_lt num (num + 1 + Z.of_nat i) Hnum ltac:(lia) ltac:(lia)) as Hlt.
      rewrite <- Heq, string_compare_refl in Hlt. discriminate.
    + constructor; [exact Hs|]. destruct chunks as [|c' chunks]; constructor.
      apply str_le_of_lt. apply chunk_filename_lt; simpl length in Hlen; lia.
Qed.

Lemma merge_named listdir (results : list (list Record_)) (w : world) :
  Z.of_nat (length results) < 10 ^ 10 ->
  listdir (chunk_files (persist_chunks (name_results 1 results) w)) ≡ₚ
    (name_results 1 results).*1 ->
  merge_chunks listdir (persist_chunks (name_results 1 results) w) =
  Return (write_csv FinalFile
                    (to_row <$> rank Views (Z.to_nat TOP_N) (concat results))
                    (persist_chunks (name_results 1 results) w)).
Proof.
  intros Hcount Hdir.
  destruct (chunk_names_sorted results 1) as [Hnd Hsorted]; [lia|lia|].
  pose proof (merge_persisted listdir (name_results 1 results) w) as Hm.
  rewrite name_results_results in Hm.
  apply Hm; rewrite ?name_results_names; try assumption.
  - apply Forall_forall. intros name Hname.
    apply elem_of_lookup_imap in Hname as (i & c & -> & _). apply chunk_filename_csv.
  - now rewrite <- name_results_names.
Qed.

(** C6.  Take any results of fewer than 10^10 chunks, in chunk order.
    When each is ranked to the top [TOP_N] and saved under the name of its
    chunk file, and the saved files are merged, the final leaderboard is
    the one a single ranking of all the results gives, and it has at most
    [TOP_N] rows.  The directory is assumed to hold the chunk files of
    this run and nothing else. *)
Theorem two_stage_reduce
    (listdir : gmap string (list CsvRow) -> list string)
    (results : list (list Record_)) (w : world) :
  Z.of_nat (length results) < 10 ^ 10 ->
  listdir (chunk_files (persist_chunks (name_results 1 results) w)) ≡ₚ
    (name_results 1 results).*1 ->
  exists board,
    merge_chunks listdir (persist_chunks (name_results 1 results) w) =
      Return (write_csv FinalFile board (persist_chunks (name_results 1 results) w)) /\
    board = to_row <$> rank Views (Z.to_nat TOP_N) (concat results) /\
    final_file (save_top (concat results) FinalFile w) = Some board /\
    (length board <= Z.to_nat TOP_N)%nat.
Proof.
  intros Hcount Hdir.
  exists (to_row <$> rank Views (Z.to_nat TOP_N) (concat results)).
  split; [now apply merge_named|]. split; [reflexivity|]. split; [reflexivity|].
  rewrite length_fmap, rank_length. lia.
Qed.

Lemma two_stage_reduce_witness :
  exists board,
    merge_chunks sample_chunks_listdir
                 (persist_chunks (name_results 1 sample_results) empty_world) =
      Return (write_csv FinalFile board
                        (persist_chunks (name_results 1 sample_results) empty_world)) /\
    board = to_row <$> rank Views (Z.to_nat TOP_N) (concat sample_results) /\
    final_file (save_top (concat sample_results) FinalFile empty_world) = Some board /\
    (length board <= Z.to_nat TOP_N)%nat.
Proof.
  apply (two_stage_reduce sample_chunks_listdir sample_results empty_world).
  - reflexivity.
  - vm_compute. apply perm_swap.
Defined.

(** For a range that takes the chunked path and has fewer than 10^10
    chunks, the leaderboard the entry point writes is the ranking of the
    results of all chunks, taken in chunk order, as long as the directory
    holds the chunk files of this run and nothing else. *)
Lemma chunked_entry_leaderboard task schedule listdir start_id end_id w :
  CHUNK_SIZE < end_id - start_id ->
  let results := (fun chunk => collect task schedule (fst chunk) (snd chunk))
                   <$> partition CHUNK_SIZE start_id end_id in
  Z.of_nat (length results) < 10 ^ 10 ->
  listdir (chunk_files (run_chunks task schedule start_id end_id w)) ≡ₚ
    (name_results 1 results).*1 ->
  exists w',
    entry task schedule listdir start_id end_id w = Return w' /\
    final_file w' = Some (to_row <$> rank Views (Z.to_nat TOP_N) (concat results)).
Proof.
  intros Hlong results Hcount Hdir.
  rewrite entry_chunked by assumption.
  rewrite run_chunks_persist in *. unfold named_chunks in *. fold results in Hdir |- *.
  pose proof (merge_named listdir results w Hcount Hdir) as Hm.
  apply merge_chunks_Return in Hm as (files & Hfiles & Hp & Hw).
  eexists. split.
  - apply merge_chunks_Return. exists files. split; [exact Hfiles|]. split; [exact Hp|].
    reflexivity.
  - apply (f_equal final_file) in Hw. cbn [final_file write_csv] in Hw |- *.
    now rewrite <- Hw.
Qed.

(** ** Admission control *)

Module AdmissionFacts.
Import Admission.

Lemma filter_insert_length (f : Z * phase -> bool) l : forall (i : nat) p p',
  l !! i = Some p ->
  (length (List.filter f (<[i := p']> l)) + b2n (f p) =
   length (List.filter f l) + b2n (f p'))%nat.
Proof.
  induction l as [|q l IH]; intros [|i] p p' H; try discriminate.
  - injection H as ->. simpl. destruct (f p), (f p'); simpl; lia.
  - simpl in H. simpl. specialize (IH i p p' H).
    destruct (f q); simpl; lia.
Qed.

Lemma count_insert f s i p p' v iss :
  tasks s !! i = Some p ->
  (count f (mkState v (<[i := p']> (tasks s)) iss) + b2n (f p) = count f s + b2n (f p'))%nat.
Proof. intros H. unfold count. simpl. now apply filter_insert_length. Qed.

Lemma filter_le (f g : Z * phase -> bool) l :
  (forall p, f p = true -> g p = true) ->
  (length (List.filter f l) <= length (List.filter g l))%nat.
Proof.
  intros H. induction l as [|p l IH]; simpl; [lia|].
  destruct (f p) eqn:Hf; [rewrite (H p Hf); simpl; lia|].
  destruct (g p); simpl; lia.
Qed.

Lemma filter_full_none (f g : Z * phase -> bool) l :
  (forall p, f p = true -> g p = false) ->
  length (List.filter f l) = length l ->
  length (List.filter g l) = 0%nat.
Proof.
  intros H. induction l as [|p l IH]; simpl; [reflexivity|].
  pose proof (List.filter_length_le f l) as Hle.
  destruct (f p) eqn:Hf; simpl; [|lia].
  intros Hl. rewrite (H p Hf). apply IH. lia.
Qed.

Lemma invariant_init capacity ids : invariant capacity (init capacity ids).
Proof.
  split; [|split].
  - unfold count, init. simpl.
    assert (H : List.filter holds_slot ((fun pid => (pid, Waiting)) <$> ids) = []).
    { induction ids as [|pid ids IH]; [reflexivity|]. rewrite fmap_cons. simpl. exact IH. }
    rewrite H. simpl. lia.
  - constructor.
  - intros i Hi. now apply elem_of_nil in Hi.
Qed.

Lemma invariant_step capacity s s' :
  invariant capacity s -> step s s' -> invariant capacity s'.
Proof.
  intros (Hv & Hnd & Hiss) Hstep.
  assert (Hkeep : forall i j pid p q,
             tasks s !! i = Some (pid, p) -> (p = Waiting \/ p = Acquired) ->
             j ∈ issued s ->
             exists pid' p', <[i := (pid, q)]> (tasks s) !! j = Some (pid', p') /\
                             (p' = Requesting \/ exists r, p' = Finished r)).
  { intros i j pid p q Hi Hp Hj. destruct (Hiss j Hj) as (pid' & p' & Hj' & Hp').
    exists pid', p'. split; [|exact Hp'].
    rewrite list_lookup_insert_ne; [exact Hj'|].
    intros <-. rewrite Hi in Hj'. injection Hj' as <- <-.
    destruct Hp as [->| ->], Hp' as [?|[? ?]]; discriminate. }
  destruct Hstep as [s i pid Hi Hpos|s i pid Hi|s i pid o Hi].
  - split; [|split]; simpl.
    + pose proof (count_insert holds_slot s i _ (pid, Acquired) (value s - 1) (issued s) Hi) as Hc.
      simpl in Hc. lia.
    + exact Hnd.
    + intros j Hj. eapply Hkeep; eauto.
  - split; [|split]; simpl.
    + pose proof (count_insert holds_slot s i _ (pid, Requesting) (value s) (issued s ++ [i]) Hi) as Hc.
      simpl in Hc. lia.
    + apply NoDup_app. split; [exact Hnd|]. split; [|apply NoDup_singleton].
      intros j Hj Hji. apply list_elem_of_singleton in Hji as ->.
      destruct (Hiss i Hj) as (pid' & p' & Hi' & Hp').
      rewrite Hi in Hi'. injection Hi' as <- <-. destruct Hp' as [?|[? ?]]; discriminate.
    + intros j Hj. apply elem_of_app in Hj as [Hj|Hj].
      * eapply Hkeep; eauto.
      * apply list_elem_of_singleton in Hj as ->. exists pid, Requesting.
        split; [|now left]. apply list_lookup_insert_eq. eapply lookup_lt_Some, Hi.
  - split; [|split]; simpl.
    + pose proof (count_insert holds_slot s i _ (pid, Finished (fetch o pid))
                               (value s + 1) (issued s) Hi) as Hc.
      simpl in Hc. lia.
    + exact Hnd.
    + intros j Hj. destruct (decide (i = j)) as [<-|Hne].
      * exists pid, (Finished (fetch o pid)). split; [|right; eauto].
        apply list_lookup_insert_eq. eapply lookup_lt_Some, Hi.
      * destruct (Hiss j Hj) as (pid' & p' & Hj' & Hp').
        exists pid', p'. split; [|exact Hp']. now rewrite list_lookup_insert_ne.
Qed.

Lemma invariant_reachable capacity ids s :
  reachable capacity ids s -> invariant capacity s.
Proof.
  unfold reachable. intros H.
  eapply (rtc_ind_r (fun s => invariant capacity s)); [|intros y z _ Hyz Hy|exact H].
  - apply invariant_init.
  - eapply invariant_step; eassumption.
Qed.

End AdmissionFacts.

(** C9.  In every state a crawl can reach with the semaphore of 125
    slots: at most 125 requests are in flight; the slots held and the
    slots free add up to 125; a request has been issued only by a task
    that had acquired a slot, and once per task; a task whose request is
    in flight gives its slot back whatever the outcome of the request;
    and when every task is over all 125 slots are free. *)
Theorem admission_control (ids : list Z) (s : Admission.state) :
  Admission.reachable SEMAPHORE_CAPACITY ids s ->
  (Admission.count Admission.in_flight s <= 125)%nat /\
  (Admission.value s + Admission.count Admission.holds_slot s = 125)%nat /\
  NoDup (Admission.issued s) /\
  (forall i, i ∈ Admission.issued s ->
             exists pid p, Admission.tasks s !! i = Some (pid, p) /\
                           (p = Admission.Requesting \/ exists r, p = Admission.Finished r)) /\
  (forall i pid o,
      Admission.tasks s !! i = Some (pid, Admission.Requesting) ->
      exists s', Admission.step s s' /\
                 Admission.value s' = S (Admission.value s) /\
                 Admission.tasks s' !! i = Some (pid, Admission.Finished (fetch o pid))) /\
  (Admission.count Admission.is_finished s = length (Admission.tasks s) ->
   Admission.value s = 125%nat).
Proof.
  intros Hr. apply AdmissionFacts.invariant_reachable in Hr as (Hv & Hnd & Hiss).
  change SEMAPHORE_CAPACITY with 125%nat in Hv.
  assert (Hle : (Admission.count Admission.in_flight s <=
                 Admission.count Admission.holds_slot s)%nat).
  { apply AdmissionFacts.filter_le. intros [pid p]. unfold Admission.in_flight, Admission.holds_slot.
    simpl. now destruct p. }
  split; [lia|]. split; [exact Hv|]. split; [exact Hnd|]. split; [exact Hiss|]. split.
  - intros i pid o Hi.
    assert (Hexit : exists o', o' <> WaitCancelled /\ fetch o' pid = fetch o pid).
    { destruct o as [|e|status json];
        [exists (GetRaises CancelledError)|exists (GetRaises e)
         |exists (GetResponse status json)];
        (split; [discriminate|reflexivity]). }
    destruct Hexit as (o' & Ho' & <-).
    eexists. split; [apply (Admission.step_exit s i pid o' Hi Ho')|].
    simpl. split; [lia|]. apply list_lookup_insert_eq. eapply lookup_lt_Some, Hi.
  - intros Hall.
    assert (H0 : Admission.count Admission.holds_slot s = 0%nat).
    { apply (AdmissionFacts.filter_full_none Admission.is_finished); [|exact Hall].
      intros [pid p]. unfold Admission.is_finished, Admission.holds_slot. simpl.
      now destruct p. }
    lia.
Qed.

Lemma admission_control_witness :
  let s := Admission.sample_state in
  (Admission.count Admission.in_flight s <= 125)%nat /\
  (Admission.value s + Admission.count Admission.holds_slot s = 125)%nat /\
  NoDup (Admission.issued s) /\
  (forall i, i ∈ Admission.issued s ->
             exists pid p, Admission.tasks s !! i = Some (pid, p) /\
                           (p = Admission.Requesting \/ exists r, p = Admission.Finished r)) /\
  (forall i pid o,
      Admission.tasks s !! i = Some (pid, Admission.Requesting) ->
      exists s', Admission.step s s' /\
                 Admission.value s' = S (Admission.value s) /\
                 Admission.tasks s' !! i = Some (pid, Admission.Finished (fetch o pid))) /\
  (Admission.count Admission.is_finished s = length (Admission.tasks s) ->
   Admission.value s = 125%nat).
Proof.
  apply (admission_control [104; 105] Admission.sample_state).
  unfold Admission.reachable.
  eapply rtc_l.
  { apply (Admission.step_acquire _ 0%nat 104); [reflexivity|simpl; unfold SEMAPHORE_CAPACITY; lia]. }
  eapply rtc_l.
  { apply (Admission.step_issue _ 0%nat 104). reflexivity. }
  eapply rtc_l.
  { apply (Admission.step_exit _ 0%nat 104 (GetResponse 404 (Return PNone)));
      [reflexivity|discriminate]. }
  eapply rtc_l.
  { apply (Admission.step_acquire _ 1%nat 105); [reflexivity|simpl; lia]. }
  eapply rtc_l.
  { apply (Admission.step_issue _ 1%nat 105). reflexivity. }
  apply rtc_refl.
Defined.

(** * Further properties *)

(** ** fetch *)

(** X1.  [fetch] raises only a signal that does not derive from
    [Exception], and only in three cases: the task is cancelled while it
    waits for a slot of the semaphore, and the signal is [CancelledError];
    the request itself raised the signal; or the reading of the body of a
    200 response did.  Nothing else leaves it. *)
Theorem fetch_raises_iff (o : get_outcome) (project_id : Z) (e : exn) :
  fetch o project_id = Raise e <->
  is_Exception e = false /\
  ((o = WaitCancelled /\ e = CancelledError) \/
   o = GetRaises e \/ o = GetResponse 200 (Raise e)).
Proof.
  split.
  - intros H.
    apply fetch_raise_inv in H as [He [->|[(json & -> & ->)|[-> ->]]]]; auto.
  - intros [He [[-> ->]|[->| ->]]]; [reflexivity|..];
      unfold fetch, try_except_Exception; simpl; now rewrite He.
Qed.

(** X2.  Of a decoded body [fetch] reads the title, the author's username
    and the view count and nothing else: two bodies that agree on the
    three give the same result. *)
Theorem fetch_reads_three_fields (status : Z) (data1 data2 : pyval) (project_id : Z) :
  payload_title data1 = payload_title data2 ->
  payload_username data1 = payload_username data2 ->
  payload_views data1 = payload_views data2 ->
  fetch (GetResponse status (Return data1)) project_id =
  fetch (GetResponse status (Return data2)) project_id.
Proof.
  intros Ht Hu Hv. destruct (Z.eqb_spec status 200) as [->|Hne].
  - now rewrite !fetch_200, Ht, Hu, Hv.
  - now rewrite !fetch_not_200.
Qed.

Lemma fetch_reads_three_fields_witness :
  fetch (GetResponse 200 (Return (PDict [("id", PInt 999);
                                          ("title", PStr "Maze");
                                          ("author", PDict [("id", PInt 7); ("username", PStr "ada")]);
                                          ("stats", PDict [("views", PInt 31); ("loves", PInt 2)])]))) 104 =
  fetch (GetResponse 200 (Return (PDict [("stats", PDict [("views", PInt 31)]);
                                          ("author", PDict [("username", PStr "ada")]);
                                          ("title", PStr "Maze")]))) 104.
Proof.
  apply (fetch_reads_three_fields 200); reflexivity.
Defined.

(** ** Ranking *)

Section RankerOrder.
Context {A : Type} (key : A -> Z).

Lemma filter_insert_desc (k : Z) x l :
  List.filter (fun y => key y =? k) (insert_desc key x l) =
  List.filter (fun y => key y =? k) (x :: l).
Proof.
  induction l as [|y l IH]; [reflexivity|].
  rewrite insert_desc_cons. destruct (Z.ltb_spec (key x) (key y)) as [Hlt|Hge]; [|reflexivity].
  cbn [List.filter] in *. rewrite IH.
  destruct (Z.eqb_spec (key x) k), (Z.eqb_spec (key y) k); try reflexivity. lia.
Qed.

Lemma filter_sort_desc (k : Z) l :
  List.filter (fun y => key y =? k) (sort_desc key l) =
  List.filter (fun y => key y =? k) l.
Proof.
  induction l as [|x l IH]; [reflexivity|].
  change (sort_desc key (x :: l)) with (insert_desc key x (sort_desc key l)).
  rewrite filter_insert_desc. cbn [List.filter]. now rewrite IH.
Qed.
End RankerOrder.

(** X3.  The sort is stable, also through the cut: the records of the
    leaderboard that have a given view count are the first ones with that
    count in the list that was ranked, in the order they had there. *)
Theorem rank_stable {A : Type} (key : A -> Z) (limit : nat) (k : Z) (l : list A) :
  List.filter (fun x => key x =? k) (rank key limit l)
    `prefix_of` List.filter (fun x => key x =? k) l.
Proof.
  exists (List.filter (fun x => key x =? k) (drop limit (sort_desc key l))).
  unfold rank. now rewrite <- List.filter_app, take_drop, filter_sort_desc.
Qed.

(** X4.  What the cut of the ranking leaves out are [len l - limit]
    records, and none of them has more views than a record that is kept:
    the leaderboard holds the top of the list. *)
Theorem rank_keeps_largest {A : Type} (key : A -> Z) (limit : nat) (l : list A) :
  exists dropped,
    rank key limit l ++ dropped ≡ₚ l /\
    length dropped = (length l - limit)%nat /\
    forall x y, x ∈ rank key limit l -> y ∈ dropped -> key y <= key x.
Proof. exists (drop limit (sort_desc key l)). apply rank_dropped. Qed.

(** ** The crawl *)

Lemma NoDup_fmap_eq {A B : Type} (f : A -> B) (l : list A) x y :
  NoDup (f <$> l) -> x ∈ l -> y ∈ l -> f x = f y -> x = y.
Proof.
  intros Hnd Hx Hy Hf.
  apply list_elem_of_lookup in Hx as (i & Hi), Hy as (j & Hj).
  assert (i = j) as ->.
  { apply (NoDup_lookup (f <$> l) i j (f x) Hnd).
    - now rewrite list_lookup_fmap, Hi.
    - now rewrite list_lookup_fmap, Hj, Hf. }
  congruence.
Qed.

(** Without ties the sort does not depend on the order of its input. *)
Lemma sort_desc_perm_distinct {A : Type} (key : A -> Z) (l1 l2 : list A) :
  l1 ≡ₚ l2 -> NoDup (key <$> l1) -> sort_desc key l1 = sort_desc key l2.
Proof.
  intros Hp Hnd. apply (StronglySorted_unique_strong (before key)).
  - intros x1 x2 H1 H2 H12 H21. unfold before in *.
    rewrite sort_desc_perm in H1. rewrite sort_desc_perm, <- Hp in H2.
    apply (NoDup_fmap_eq key l1); auto. lia.
  - apply Sorted_StronglySorted; [apply _|apply sort_desc_Sorted].
  - apply Sorted_StronglySorted; [apply _|apply sort_desc_Sorted].
  - now rewrite !sort_desc_perm.
Qed.

Lemma written_write_csv output_file rows w :
  written output_file (write_csv output_file rows w) = Some rows.
Proof. destruct output_file; simpl; [reflexivity|apply lookup_insert_eq]. Qed.

Lemma collect_perm task schedule start_id end_id :
  (forall l, schedule l ≡ₚ l) ->
  collect task schedule start_id end_id ≡ₚ omap task (Py.range start_id (end_id + 1) 1).
Proof. intros Hs. unfold collect. now rewrite Hs. Qed.

(** X5.  The order in which the tasks of a crawl complete shows in the
    saved file only among records with equal view counts: two completion
    orders give files with the same column of view counts, and the same
    file altogether when no two records of the range have the same view
    count. *)
Theorem crawl_projects_completion_order
    (task : Z -> option Record_) (schedule1 schedule2 : list Z -> list Z)
    (start_id end_id : Z) (output_file : path) (w : world) :
  (forall l, schedule1 l ≡ₚ l) ->
  (forall l, schedule2 l ≡ₚ l) ->
  exists rows1 rows2,
    written output_file (crawl_projects task schedule1 start_id end_id output_file w) = Some rows1 /\
    written output_file (crawl_projects task schedule2 start_id end_id output_file w) = Some rows2 /\
    Views <$> rows1 = Views <$> rows2 /\
    (NoDup (Views <$> omap task (Py.range start_id (end_id + 1) 1)) ->
     crawl_projects task schedule1 start_id end_id output_file w =
     crawl_projects task schedule2 start_id end_id output_file w).
Proof.
  intros H1 H2. unfold crawl_projects, save_top.
  do 2 eexists. split; [apply written_write_csv|]. split; [apply written_write_csv|].
  assert (Hp : collect task schedule1 start_id end_id ≡ₚ collect task schedule2 start_id end_id)
    by now rewrite !collect_perm.
  split.
  - rewrite <- !list_fmap_compose.
    change (Views ∘ to_row) with (Py.str ∘ (Views : Record_ -> Z)).
    rewrite !list_fmap_compose. f_equal. now apply rank_keys_perm.
  - intros Hnd. unfold rank.
    rewrite (sort_desc_perm_distinct Views _ _ Hp); [reflexivity|].
    now rewrite collect_perm.
Qed.

Lemma crawl_projects_completion_order_witness :
  exists rows1 rows2,
    written FinalFile (crawl_projects sample_task (fun l => l) 1 5 FinalFile empty_world) = Some rows1 /\
    written FinalFile (crawl_projects sample_task reverse 1 5 FinalFile empty_world) = Some rows2 /\
    Views <$> rows1 = Views <$> rows2 /\
    (NoDup (Views <$> omap sample_task (Py.range 1 (5 + 1) 1)) ->
     crawl_projects sample_task (fun l => l) 1 5 FinalFile empty_world =
     crawl_projects sample_task reverse 1 5 FinalFile empty_world).
Proof.
  apply (crawl_projects_completion_order sample_task (fun l => l) reverse 1 5 FinalFile empty_world).
  - intros l. reflexivity.
  - intros l. apply reverse_Permutation.
Defined.

(** ** run_chunks *)

Lemma partition_ids C S E : 0 < C -> concat (chunk_ids <$> partition C S E) = Py.range S (E + 1) 1.
Proof.
  intros HC. rewrite range_step1. replace (E + 1 - S) with (E - S + 1) by lia.
  apply (partition_covers C (Z.to_nat (E - S + 1))); lia.
Qed.

(** X6.  The chunked crawl issues the requests of the ids
    [start_id..end_id], each id once and in ascending order, whatever the
    tasks return; for [start_id <= end_id] these are
    [end_id - start_id + 1] requests, the [total_ids] of its progress
    bar. *)
Theorem run_chunks_requests
    (task : Z -> option Record_) (schedule : list Z -> list Z)
    (start_id end_id : Z) (w : world) :
  requests (run_chunks task schedule start_id end_id w) =
    requests w ++ Py.range start_id (end_id + 1) 1 /\
  NoDup (Py.range start_id (end_id + 1) 1) /\
  (forall id, id ∈ Py.range start_id (end_id + 1) 1 <-> start_id <= id <= end_id) /\
  (start_id <= end_id ->
   Z.of_nat (length (Py.range start_id (end_id + 1) 1)) = end_id - start_id + 1).
Proof.
  split; [|split; [|split]].
  - rewrite run_chunks_persist. unfold issue. simpl.
    rewrite (proj2 (persist_chunks_final _ w)). f_equal.
    apply partition_ids. reflexivity.
  - rewrite range_step1. apply NoDup_seqZ.
  - intros id. rewrite range_step1, elem_of_seqZ. lia.
  - intros H. rewrite range_step1, length_seqZ. lia.
Qed.

Lemma persist_chunks_lookup_ne named w name :
  name ∉ named.*1 ->
  chunk_files (persist_chunks named w) !! name = chunk_files w !! name.
Proof.
  induction named as [|a named IH] using rev_ind; intros Hn; [reflexivity|].
  rewrite persist_chunks_snoc. unfold save_top, write_csv. simpl chunk_files.
  rewrite fmap_app in Hn. apply not_elem_of_app in Hn as [Hn Ha].
  rewrite lookup_insert_ne; [now apply IH|].
  intros Heq. apply Ha. rewrite <- Heq. now left.
Qed.

Lemma name_results_lookup num results (i : nat) :
  name_results num results !! i =
  (fun r => (chunk_filename (num + Z.of_nat i), r)) <$> results !! i.
Proof.
  unfold name_results.
  apply (list_lookup_imap (fun (j : nat) r => (chunk_filename (num + Z.of_nat j), r))).
Qed.

(** X7.  For a range of fewer than 10^10 chunks the chunked crawl leaves
    the final file alone, leaves every file of the directory alone whose
    name is not that of one of its chunks, and puts into the file of the
    chunk number [i + 1] the ranked results of the crawl of the [i]-th
    chunk. *)
Theorem run_chunks_files
    (task : Z -> option Record_) (schedule : list Z -> list Z)
    (start_id end_id : Z) (w : world) :
  Z.of_nat (length (partition CHUNK_SIZE start_id end_id)) < 10 ^ 10 ->
  final_file (run_chunks task schedule start_id end_id w) = final_file w /\
  (forall (i : nat) s e,
      partition CHUNK_SIZE start_id end_id !! i = Some (s, e) ->
      chunk_files (run_chunks task schedule start_id end_id w)
        !! chunk_filename (1 + Z.of_nat i) =
      Some (to_row <$> rank Views (Z.to_nat TOP_N) (collect task schedule s e))) /\
  (forall name,
      (forall i : nat, (i < length (partition CHUNK_SIZE start_id end_id))%nat ->
                       name <> chunk_filename (1 + Z.of_nat i)) ->
      chunk_files (run_chunks task schedule start_id end_id w) !! name =
      chunk_files w !! name).
Proof.
  intros Hcount. rewrite run_chunks_persist. unfold named_chunks.
  set (chunks := partition CHUNK_SIZE start_id end_id) in *.
  set (results := (fun chunk => collect task schedule (fst chunk) (snd chunk)) <$> chunks).
  assert (Hlen : length results = length chunks) by apply length_fmap.
  cbn [final_file chunk_files issue].
  split; [apply persist_chunks_final|]. split.
  - intros i s e Hi. apply persist_chunks_lookup.
    + rewrite name_results_names. apply chunk_names_sorted; lia.
    + apply list_elem_of_lookup. exists i.
      rewrite name_results_lookup. unfold results. now rewrite list_lookup_fmap, Hi.
  - intros name Hname. apply persist_chunks_lookup_ne.
    rewrite name_results_names. intros Hin.
    apply elem_of_lookup_imap in Hin as (i & r & -> & Hi).
    apply lookup_lt_Some in Hi. apply (Hname i); [lia|reflexivity].
Qed.

Lemma run_chunks_files_witness :
  final_file (run_chunks sample_task (fun l => l) 1 100002 empty_world) = final_file empty_world /\
  (forall (i : nat) s e,
      partition CHUNK_SIZE 1 100002 !! i = Some (s, e) ->
      chunk_files (run_chunks sample_task (fun l => l) 1 100002 empty_world)
        !! chunk_filename (1 + Z.of_nat i) =
      Some (to_row <$> rank Views (Z.to_nat TOP_N) (collect sample_task (fun l => l) s e))) /\
  (forall name,
      (forall i : nat, (i < length (partition CHUNK_SIZE 1 100002))%nat ->
                       name <> chunk_filename (1 + Z.of_nat i)) ->
      chunk_files (run_chunks sample_task (fun l => l) 1 100002 empty_world) !! name =
      chunk_files empty_world !! name).
Proof.
  apply (run_chunks_files sample_task (fun l => l) 1 100002 empty_world).
  reflexivity.
Defined.

(** ** merge_chunks *)

(** X8.  The merge writes the final file and nothing else: the chunk
    files and the requests are as before, so that running it again on
    what it left gives the same result. *)
Theorem merge_chunks_rerun
    (listdir : gmap string (list CsvRow) -> list string) (w w' : world) :
  merge_chunks listdir w = Return w' ->
  chunk_files w' = chunk_files w /\
  requests w' = requests w /\
  is_Some (final_file w') /\
  merge_chunks listdir w' = Return w'.
Proof.
  intros H. apply merge_chunks_Return in H as (files & Hfiles & Hp & ->).
  split; [reflexivity|]. split; [reflexivity|]. split; [simpl; eauto|].
  apply merge_chunks_Return. exists files. split; [exact Hfiles|]. split; [exact Hp|].
  reflexivity.
Qed.

Lemma merge_chunks_rerun_witness :
  let w' := write_csv FinalFile (sample_rows_2 ++ sample_rows_1) sample_world in
  chunk_files w' = chunk_files sample_world /\
  requests w' = requests sample_world /\
  is_Some (final_file w') /\
  merge_chunks sample_listdir w' = Return w'.
Proof.
  apply (merge_chunks_rerun sample_listdir sample_world). vm_compute. reflexivity.
Defined.

Lemma StronglySorted_filter {A : Type} (R : relation A) (f : A -> bool) l :
  StronglySorted R l -> StronglySorted R (List.filter f l).
Proof.
  induction 1 as [|x l Hs IH Hall]; simpl; [constructor|].
  destruct (f x); [|exact IH]. constructor; [exact IH|].
  rewrite List.Forall_forall in *. intros y Hy. apply Hall.
  now apply List.filter_In in Hy.
Qed.

Lemma filter_Permutation {A : Type} (f : A -> bool) (l1 l2 : list A) :
  l1 ≡ₚ l2 -> List.filter f l1 ≡ₚ List.filter f l2.
Proof.
  induction 1 as [|x l1 l2 _ IH|x y l|l1 l2 l3 _ IH1 _ IH2]; simpl.
  - reflexivity.
  - destruct (f x); [now constructor|exact IH].
  - destruct (f x), (f y); try reflexivity. apply perm_swap.
  - now rewrite IH1.
Qed.

Lemma artifact_names_skip names1 names2 name :
  endswith name ".csv" = false ->
  names2 ≡ₚ name :: names1 ->
  List.filter (fun file => endswith file ".csv") (sorted names2) =
  List.filter (fun file => endswith file ".csv") (sorted names1).
Proof.
  intros Hn Hp. apply (StronglySorted_unique str_le).
  - apply StronglySorted_filter, Sorted_StronglySorted; [apply _|apply sorted_Sorted].
  - apply StronglySorted_filter, Sorted_StronglySorted; [apply _|apply sorted_Sorted].
  - rewrite (filter_Permutation _ _ _ (sorted_perm names2)).
    rewrite (filter_Permutation _ _ _ (sorted_perm names1)).
    rewrite (filter_Permutation _ _ _ Hp). simpl. now rewrite Hn.
Qed.

Lemma mapM_ext_in {A B : Type} (f g : A -> result B) l :
  (forall x, x ∈ l -> f x = g x) -> mapM f l = mapM g l.
Proof.
  induction l as [|x l IH]; intros H; [reflexivity|].
  rewrite !mapM_cons, (H x) by left. rewrite IH; [reflexivity|].
  intros y Hy. apply H. now right.
Qed.

(** X9.  A file of the directory whose name does not end in [.csv] is
    not opened: with or without it the merge ends with the same final
    file, or with the same exception. *)
Theorem merge_chunks_skips_other_files
    (listdir : gmap string (list CsvRow) -> list string)
    (w1 w2 : world) (name : string) (rows : list CsvRow) :
  endswith name ".csv" = false ->
  chunk_files w2 = <[name := rows]> (chunk_files w1) ->
  listdir (chunk_files w2) ≡ₚ name :: listdir (chunk_files w1) ->
  leaderboard (merge_chunks listdir w2) = leaderboard (merge_chunks listdir w1).
Proof.
  intros Hn Hfiles Hdir. unfold merge_chunks.
  rewrite (artifact_names_skip _ _ _ Hn Hdir).
  set (names := List.filter _ _).
  assert (Hread : mapM (fun file => read_csv file w2) names =
                  mapM (fun file => read_csv file w1) names).
  { apply mapM_ext_in. intros file Hfile. unfold read_csv. rewrite Hfiles.
    rewrite lookup_insert_ne; [reflexivity|].
    intros <-. apply list_elem_of_In, List.filter_In in Hfile as [_ Hfile]. congruence. }
  rewrite Hread. generalize (mapM (fun file => read_csv file w1) names).
  intros [files|e]; [|reflexivity].
  change (leaderboard (Py.bind (merge_rows (concat files))
                               (fun rows0 => Return (write_csv FinalFile rows0 w2))) =
          leaderboard (Py.bind (merge_rows (concat files))
                               (fun rows0 => Return (write_csv FinalFile rows0 w1)))).
  destruct (merge_rows (concat files)) as [board|e]; reflexivity.
Qed.

Lemma merge_chunks_skips_other_files_witness :
  leaderboard (merge_chunks sample_listdir_notes sample_world_notes) =
  leaderboard (merge_chunks sample_listdir_notes sample_world).
Proof.
  apply (merge_chunks_skips_other_files sample_listdir_notes sample_world sample_world_notes
           "notes.txt" [mkRow "" "" "" "n/a"]).
  - reflexivity.
  - reflexivity.
  - vm_compute. reflexivity.
Defined.

Lemma bind_Raise {A B : Type} (m : result A) (k : A -> result B) e :
  m = Raise e -> m ≫= k = Raise e.
Proof. now intros ->. Qed.

Lemma bind_Return_eq {A B : Type} (a : A) (k : A -> result B) : Return a ≫= k = k a.
Proof. reflexivity. Qed.

Lemma int_raises s e : Py.int s = Raise e -> e = ValueError.
Proof.
  unfold Py.int, Py.int_of_text. destruct (Py.code_points s) as [text|]; [|congruence].
  destruct (Py.scan_text _ _) as [[| | |]|]; congruence.
Qed.

Lemma mapM_keyed_raises rows x :
  x ∈ rows -> ~ parses x -> mapM keyed rows = Raise ValueError.
Proof.
  induction rows as [|y rows IH]; intros Hx Hp; [now apply elem_of_nil in Hx|].
  rewrite mapM_cons.
  change (keyed y) with (Py.bind (Py.int (Views y)) (fun k => Return (k, y))).
  unfold Py.bind.
  destruct (Py.int (Views y)) as [k|e] eqn:Hy.
  - apply elem_of_cons in Hx as [->|Hx].
    + exfalso. apply Hp. unfold parses, views_int. now rewrite Hy.
    + now rewrite (IH Hx Hp).
  - now rewrite (int_raises _ _ Hy).
Qed.

Lemma merge_chunks_raises
    (listdir : gmap string (list CsvRow) -> list string) (w : world)
    (name : string) (rows : list CsvRow) (x : CsvRow) :
  (forall file, file ∈ listdir (chunk_files w) -> is_Some (chunk_files w !! file)) ->
  name ∈ listdir (chunk_files w) ->
  endswith name ".csv" = true ->
  chunk_files w !! name = Some rows ->
  x ∈ rows ->
  Py.int (Views x) = Raise ValueError ->
  merge_chunks listdir w = Raise ValueError.
Proof.
  intros Hdir Hname Hcsv Hrows Hx Hint.
  destruct (lookup_all (chunk_files w)
              (List.filter (fun file => endswith file ".csv")
                           (sorted (listdir (chunk_files w))))) as [files Hfiles].
  { intros file Hfile. now apply Hdir, elem_of_artifact_names. }
  assert (Hread : mapM (fun file => read_csv file w)
                       (List.filter (fun file => endswith file ".csv")
                                    (sorted (listdir (chunk_files w)))) = Return files).
  { apply mapM_Return. eapply Forall2_impl; [exact Hfiles|].
    intros file rs Hl. unfold read_csv. now rewrite Hl. }
  assert (Hin : x ∈ concat files).
  { apply list_elem_of_In, List.in_concat. exists rows.
    split; [|now apply list_elem_of_In]. apply list_elem_of_In.
    assert (Hn : name ∈ List.filter (fun file => endswith file ".csv")
                                    (sorted (listdir (chunk_files w)))).
    { apply list_elem_of_In, List.filter_In. split; [|exact Hcsv].
      apply list_elem_of_In. now rewrite sorted_perm. }
    apply list_elem_of_lookup in Hn as (i & Hi).
    destruct (Forall2_lookup_l _ _ _ _ _ Hfiles Hi) as (rs & Hrs & Hl).
    rewrite Hrows in Hl. injection Hl as <-. eapply list_elem_of_lookup_2, Hrs. }
  unfold merge_chunks. rewrite Hread, bind_Return_eq.
  apply bind_Raise. unfold merge_rows. apply bind_Raise.
  apply (mapM_keyed_raises (concat files) x Hin).
  unfold parses. rewrite Hint. discriminate.
Qed.

(** X10.  When a [.csv] file of the directory has a row whose view count
    [int] does not accept, the merge ends with [ValueError] instead of a
    final file. *)
Theorem merge_chunks_bad_views
    (listdir : gmap string (list CsvRow) -> list string) (w : world)
    (name : string) (rows : list CsvRow) (x : CsvRow) :
  (forall file, file ∈ listdir (chunk_files w) -> is_Some (chunk_files w !! file)) ->
  name ∈ listdir (chunk_files w) ->
  endswith name ".csv" = true ->
  chunk_files w !! name = Some rows ->
  x ∈ rows ->
  Py.int (Views x) = Raise ValueError ->
  merge_chunks listdir w = Raise ValueError.
Proof. apply merge_chunks_raises. Qed.

Lemma merge_chunks_bad_views_witness :
  merge_chunks sample_listdir_foreign sample_world_foreign = Raise ValueError.
Proof.
  apply (merge_chunks_bad_views sample_listdir_foreign sample_world_foreign
           "old.csv" [mkRow "7" "Maze" "ada" "n/a"] (mkRow "7" "Maze" "ada" "n/a")).
  - intros file Hfile. unfold sample_listdir_foreign in Hfile.
    apply elem_of_cons in Hfile as [->|Hfile]; [vm_compute; eauto|].
    apply elem_of_cons in Hfile as [->|Hfile]; [vm_compute; eauto|].
    apply elem_of_cons in Hfile as [->|Hfile]; [vm_compute; eauto|].
    now apply elem_of_nil in Hfile.
  - unfold sample_listdir_foreign. right. left.
  - reflexivity.
  - reflexivity.
  - left.
  - reflexivity.
Defined.

(** ** The entry point *)

Lemma collect_chunks_perm task schedule (chunks : list (Z * Z)) :
  (forall l, schedule l ≡ₚ l) ->
  concat ((fun chunk => collect task schedule (fst chunk) (snd chunk)) <$> chunks) ≡ₚ
  omap task (concat (chunk_ids <$> chunks)).
Proof.
  intros Hs. induction chunks as [|c chunks IH]; [reflexivity|].
  rewrite !fmap_cons. cbn [concat]. rewrite omap_app, IH.
  apply Permutation_app; [|reflexivity]. now apply collect_perm.
Qed.

(** X11.  For a range that takes the chunked path and has fewer than
    10^10 chunks, in a directory that holds the chunk files of this run
    and nothing else, the program ends normally and the final file is the
    ranking of the results of all chunks, taken in chunk order. *)
Theorem entry_chunked_final_file
    (task : Z -> option Record_) (schedule : list Z -> list Z)
    (listdir : gmap string (list CsvRow) -> list string)
    (start_id end_id : Z) (w : world) :
  CHUNK_SIZE < end_id - start_id ->
  Z.of_nat (length (partition CHUNK_SIZE start_id end_id)) < 10 ^ 10 ->
  listdir (chunk_files (run_chunks task schedule start_id end_id w)) ≡ₚ
    (fun i : nat => chunk_filename (1 + Z.of_nat i))
      <$> seq 0 (length (partition CHUNK_SIZE start_id end_id)) ->
  exists w',
    main_after_input task schedule listdir start_id end_id w = Finished w' /\
    final_file w' =
    Some (to_row <$> rank Views (Z.to_nat TOP_N)
            (concat ((fun chunk => collect task schedule (fst chunk) (snd chunk))
                       <$> partition CHUNK_SIZE start_id end_id))).
Proof.
  intros Hlong Hcount Hdir.
  destruct (chunked_entry_leaderboard task schedule listdir start_id end_id w Hlong)
    as (w' & Hw' & Hfinal).
  - now rewrite length_fmap.
  - rewrite Hdir, name_results_names, imap_seq_0. now rewrite length_fmap.
  - exists w'. split; [|exact Hfinal]. unfold main_after_input. now rewrite Hw'.
Qed.

Lemma entry_chunked_final_file_witness :
  exists w',
    main_after_input sample_task (fun l => l) sample_run_listdir 1 100002 empty_world
      = Finished w' /\
    final_file w' =
    Some (to_row <$> rank Views (Z.to_nat TOP_N)
            (concat ((fun chunk => collect sample_task (fun l => l) (fst chunk) (snd chunk))
                       <$> partition CHUNK_SIZE 1 100002))).
Proof.
  apply (entry_chunked_final_file sample_task (fun l => l) sample_run_listdir 1 100002 empty_world).
  - reflexivity.
  - reflexivity.
  - unfold sample_run_listdir.
    change (length (partition CHUNK_SIZE 1 100002)) with 2%nat. apply perm_swap.
Defined.

(** X12.  The chunked path and a single crawl of the same range give
    leaderboards with the same column of view counts, and the same
    leaderboard when no two records of the range have the same view
    count. *)
Theorem entry_paths_agree
    (task : Z -> option Record_) (schedule : list Z -> list Z)
    (listdir : gmap string (list CsvRow) -> list string)
    (start_id end_id : Z) (w : world) :
  (forall l, schedule l ≡ₚ l) ->
  CHUNK_SIZE < end_id - start_id ->
  Z.of_nat (length (partition CHUNK_SIZE start_id end_id)) < 10 ^ 10 ->
  listdir (chunk_files (run_chunks task schedule start_id end_id w)) ≡ₚ
    (fun i : nat => chunk_filename (1 + Z.of_nat i))
      <$> seq 0 (length (partition CHUNK_SIZE start_id end_id)) ->
  exists w' chunked single,
    entry task schedule listdir start_id end_id w = Return w' /\
    final_file w' = Some chunked /\
    final_file (crawl_projects task schedule start_id end_id FinalFile w) = Some single /\
    Views <$> chunked = Views <$> single /\
    (NoDup (Views <$> omap task (Py.range start_id (end_id + 1) 1)) -> chunked = single).
Proof.
  intros Hs Hlong Hcount Hdir.
  destruct (chunked_entry_leaderboard task schedule listdir start_id end_id w Hlong)
    as (w' & Hw' & Hfinal).
  - now rewrite length_fmap.
  - rewrite Hdir, name_results_names, imap_seq_0. now rewrite length_fmap.
  - exists w'. do 2 eexists. split; [exact Hw'|]. split; [exact Hfinal|].
    split; [reflexivity|].
    assert (Hp : concat ((fun chunk => collect task schedule (fst chunk) (snd chunk))
                           <$> partition CHUNK_SIZE start_id end_id) ≡ₚ
                 collect task schedule start_id end_id).
    { rewrite collect_chunks_perm, partition_ids, collect_perm by (assumption || reflexivity).
      reflexivity. }
    split.
    + rewrite <- !list_fmap_compose.
      change (Views ∘ to_row) with (Py.str ∘ (Views : Record_ -> Z)).
      rewrite !list_fmap_compose. f_equal. now apply rank_keys_perm.
    + intros Hnd. unfold rank. f_equal. f_equal.
      apply sort_desc_perm_distinct; [exact Hp|].
      now rewrite Hp, collect_perm.
Qed.

Lemma entry_paths_agree_witness :
  exists w' chunked single,
    entry sample_task reverse sample_run_listdir 1 100002 empty_world = Return w' /\
    final_file w' = Some chunked /\
    final_file (crawl_projects sample_task reverse 1 100002 FinalFile empty_world) = Some single /\
    Views <$> chunked = Views <$> single /\
    (NoDup (Views <$> omap sample_task (Py.range 1 (100002 + 1) 1)) -> chunked = single).
Proof.
  apply (entry_paths_agree sample_task reverse sample_run_listdir 1 100002 empty_world).
  - intros l. apply reverse_Permutation.
  - reflexivity.
  - reflexivity.
  - unfold sample_run_listdir.
    change (length (partition CHUNK_SIZE 1 100002)) with 2%nat. apply perm_swap.
Defined.

Lemma persist_chunks_is_Some named w name :
  name ∈ named.*1 -> is_Some (chunk_files (persist_chunks named w) !! name).
Proof.
  induction named as [|a named IH] using rev_ind; intros Hn.
  - now apply elem_of_nil in Hn.
  - rewrite persist_chunks_snoc. unfold save_top, write_csv. simpl chunk_files.
    destruct (decide (fst a = name)) as [<-|Hne].
    + rewrite lookup_insert_eq. eauto.
    + rewrite lookup_insert_ne by assumption. apply IH.
      rewrite fmap_app in Hn. apply elem_of_app in Hn as [Hn|Hn]; [exact Hn|].
      apply list_elem_of_singleton in Hn. congruence.
Qed.

(** X13.  A [.csv] file that something else left in the directory, with a
    view count [int] does not accept, ends a chunked run after all chunks
    are crawled: the [ValueError] of the merge reaches the handler of the
    entry point, and the program ends with the message that asks for a
    valid integer. *)
Theorem foreign_csv_ends_run
    (task : Z -> option Record_) (schedule : list Z -> list Z)
    (listdir : gmap string (list CsvRow) -> list string)
    (start_id end_id : Z) (w : world)
    (name : string) (rows : list CsvRow) (x : CsvRow) :
  CHUNK_SIZE < end_id - start_id ->
  (forall i : nat, (i < length (partition CHUNK_SIZE start_id end_id))%nat ->
                   name <> chunk_filename (1 + Z.of_nat i)) ->
  endswith name ".csv" = true ->
  chunk_files w !! name = Some rows ->
  x ∈ rows ->
  Py.int (Views x) = Raise ValueError ->
  listdir (chunk_files (run_chunks task schedule start_id end_id w)) ≡ₚ
    name :: ((fun i : nat => chunk_filename (1 + Z.of_nat i))
               <$> seq 0 (length (partition CHUNK_SIZE start_id end_id))) ->
  main_after_input task schedule listdir start_id end_id w = InvalidIntegerMessage.
Proof.
  intros Hlong Hname Hcsv Hrows Hx Hint Hdir.
  unfold main_after_input. rewrite entry_chunked by assumption.
  assert (Hnames : (named_chunks task schedule 1 (partition CHUNK_SIZE start_id end_id)).*1 =
                   (fun i : nat => chunk_filename (1 + Z.of_nat i))
                     <$> seq 0 (length (partition CHUNK_SIZE start_id end_id))).
  { unfold named_chunks. now rewrite name_results_names, imap_seq_0, length_fmap. }
  assert (Hfresh : name ∉ (named_chunks task schedule 1
                                        (partition CHUNK_SIZE start_id end_id)).*1).
  { rewrite Hnames. intros Hin. apply list_elem_of_fmap in Hin as (i & -> & Hi).
    apply elem_of_seq in Hi. apply (Hname i); [lia|reflexivity]. }
  rewrite (merge_chunks_raises listdir _ name rows x); [reflexivity| | | | |assumption..].
  - intros file Hfile. rewrite Hdir in Hfile. rewrite run_chunks_persist.
    cbn [chunk_files issue].
    apply elem_of_cons in Hfile as [->|Hfile].
    + rewrite persist_chunks_lookup_ne by assumption. eauto.
    + apply persist_chunks_is_Some. now rewrite Hnames.
  - rewrite Hdir. left.
  - exact Hcsv.
  - rewrite run_chunks_persist. cbn [chunk_files issue].
    now rewrite persist_chunks_lookup_ne.
Qed.

Lemma foreign_csv_ends_run_witness :
  main_after_input sample_task (fun l => l) sample_foreign_run_listdir 1 100002
                   sample_world_foreign = InvalidIntegerMessage.
Proof.
  apply (foreign_csv_ends_run sample_task (fun l => l) sample_foreign_run_listdir 1 100002
           sample_world_foreign "old.csv"
           [mkRow "7" "Maze" "ada" "n/a"] (mkRow "7" "Maze" "ada" "n/a")).
  - reflexivity.
  - change (length (partition CHUNK_SIZE 1 100002)) with 2%nat.
    intros [|[|i]] Hi; [vm_compute; discriminate..|lia].
  - reflexivity.
  - reflexivity.
  - left.
  - reflexivity.
  - unfold sample_foreign_run_listdir.
    change (length (partition CHUNK_SIZE 1 100002)) with 2%nat.
    etrans; [apply perm_swap|]. apply perm_skip, perm_swap.
Defined.

(** ** Admission control *)

Module AdmissionMore.
Import Admission.

Lemma sample_state_steps : nsteps step 5 (init SEMAPHORE_CAPACITY [104; 105]) sample_state.
Proof.
  eapply nsteps_l.
  { apply (step_acquire _ 0%nat 104); [reflexivity|simpl; unfold SEMAPHORE_CAPACITY; lia]. }
  eapply nsteps_l.
  { apply (step_issue _ 0%nat 104). reflexivity. }
  eapply nsteps_l.
  { apply (step_exit _ 0%nat 104 (GetResponse 404 (Return PNone)));
      [reflexivity|discriminate]. }
  eapply nsteps_l.
  { apply (step_acquire _ 1%nat 105); [reflexivity|simpl; lia]. }
  eapply nsteps_l.
  { apply (step_issue _ 1%nat 105). reflexivity. }
  apply nsteps_O.
Defined.

Lemma sample_state_reachable : reachable SEMAPHORE_CAPACITY [104; 105] sample_state.
Proof. apply (rtc_nsteps_2 5), sample_state_steps. Defined.

Lemma fst_insert (l : list (Z * phase)) (i : nat) pid p p' :
  l !! i = Some (pid, p) -> fst <$> <[i := (pid, p')]> l = fst <$> l.
Proof.
  intros H. rewrite list_fmap_insert. apply list_insert_id.
  now rewrite list_lookup_fmap, H.
Qed.

Lemma coherent_init capacity ids : coherent ids (init capacity ids).
Proof.
  split; [|split]; simpl.
  - rewrite <- list_fmap_compose. apply list_fmap_id.
  - intros i pid p Hi Hp. rewrite list_lookup_fmap in Hi.
    destruct (ids !! i); simpl in Hi; [|discriminate]. injection Hi as _ <-.
    destruct Hp as [?|[? ?]]; discriminate.
  - intros i pid r Hi. rewrite list_lookup_fmap in Hi.
    destruct (ids !! i); simpl in Hi; discriminate.
Qed.

Lemma coherent_step ids s s' : coherent ids s -> step s s' -> coherent ids s'.
Proof.
  intros (Hids & Hiss & Hfin) Hstep.
  destruct Hstep as [s i pid Hi Hpos|s i pid Hi|s i pid o Hi];
    (split; [|split]); simpl.
  - now rewrite (fst_insert _ _ _ _ _ Hi).
  - intros j pid' p' Hj Hp. destruct (decide (i = j)) as [<-|Hne].
    + rewrite list_lookup_insert_eq in Hj by (eapply lookup_lt_Some, Hi).
      injection Hj as _ <-. destruct Hp as [?|[? ?]]; discriminate.
    + rewrite list_lookup_insert_ne in Hj by assumption. eauto.
  - intros j pid' r Hj. destruct (decide (i = j)) as [<-|Hne].
    + rewrite list_lookup_insert_eq in Hj by (eapply lookup_lt_Some, Hi). discriminate.
    + rewrite list_lookup_insert_ne in Hj by assumption. eauto.
  - now rewrite (fst_insert _ _ _ _ _ Hi).
  - intros j pid' p' Hj Hp. apply elem_of_app. destruct (decide (i = j)) as [<-|Hne].
    + right. now left.
    + rewrite list_lookup_insert_ne in Hj by assumption. left. eauto.
  - intros j pid' r Hj. destruct (decide (i = j)) as [<-|Hne].
    + rewrite list_lookup_insert_eq in Hj by (eapply lookup_lt_Some, Hi). discriminate.
    + rewrite list_lookup_insert_ne in Hj by assumption. eauto.
  - now rewrite (fst_insert _ _ _ _ _ Hi).
  - intros j pid' p' Hj Hp. destruct (decide (i = j)) as [<-|Hne].
    + apply (Hiss i pid Requesting Hi). now left.
    + rewrite list_lookup_insert_ne in Hj by assumption. eauto.
  - intros j pid' r Hj. destruct (decide (i = j)) as [<-|Hne].
    + rewrite list_lookup_insert_eq in Hj by (eapply lookup_lt_Some, Hi).
      injection Hj as <- <-. eauto.
    + rewrite list_lookup_insert_ne in Hj by assumption. eauto.
Qed.

Lemma coherent_reachable capacity ids s : reachable capacity ids s -> coherent ids s.
Proof.
  unfold reachable. intros H.
  eapply (rtc_ind_r (fun s => coherent ids s)); [|intros y z _ Hyz Hy|exact H].
  - apply coherent_init.
  - eapply coherent_step; eassumption.
Qed.

Lemma filter_all_lookup (f : Z * phase -> bool) l (i : nat) p :
  length (List.filter f l) = length l -> l !! i = Some p -> f p = true.
Proof.
  revert i. induction l as [|q l IH]; intros i Hlen Hi; [now rewrite lookup_nil in Hi|].
  simpl in Hlen. pose proof (List.filter_length_le f l) as Hle.
  destruct (f q) eqn:Hq; simpl in Hlen; [|lia].
  destruct i as [|i]; simpl in Hi; [congruence|]. apply (IH i); [lia|exact Hi].
Qed.

Lemma filter_some_false (f : Z * phase -> bool) l :
  (length (List.filter f l) < length l)%nat ->
  exists (i : nat) p, l !! i = Some p /\ f p = false.
Proof.
  induction l as [|q l IH]; simpl; [lia|]. destruct (f q) eqn:Hq; simpl.
  - intros H. destruct IH as (i & p & Hi & Hp); [lia|]. now exists (S i), p.
  - intros _. now exists 0%nat, q.
Qed.

Lemma filter_some_true (f : Z * phase -> bool) l :
  (0 < length (List.filter f l))%nat ->
  exists (i : nat) p, l !! i = Some p /\ f p = true.
Proof.
  induction l as [|q l IH]; simpl; [lia|]. destruct (f q) eqn:Hq; simpl.
  - intros _. now exists 0%nat, q.
  - intros H. destruct (IH H) as (i & p & Hi & Hp). now exists (S i), p.
Qed.

Lemma remaining_insert s i p p' v iss :
  tasks s !! i = Some p ->
  (remaining (mkState v (<[i := p']> (tasks s)) iss) + steps_left p =
   remaining s + steps_left p')%nat.
Proof.
  unfold remaining. simpl. generalize (tasks s). intros l. revert i.
  induction l as [|q l IH]; intros [|i] H; try discriminate.
  - injection H as ->. simpl. lia.
  - simpl in H. specialize (IH i H).
    change (<[S i := p']> (q :: l)) with (q :: <[i := p']> l).
    rewrite !fmap_cons. simpl. lia.
Qed.

Lemma remaining_step s s' : step s s' -> remaining s = S (remaining s').
Proof.
  intros [s0 i pid Hi Hpos|s0 i pid Hi|s0 i pid o Hi Ho].
  - pose proof (remaining_insert s0 i _ (pid, Acquired) (value s0 - 1) (issued s0) Hi) as H.
    unfold steps_left in H. simpl in H. lia.
  - pose proof (remaining_insert s0 i _ (pid, Requesting) (value s0) (issued s0 ++ [i]) Hi) as H.
    unfold steps_left in H. simpl in H. lia.
  - pose proof (remaining_insert s0 i _ (pid, Finished (fetch o pid)) (value s0 + 1)
                                 (issued s0) Hi) as H.
    unfold steps_left in H. simpl in H. lia.
Qed.

Lemma remaining_init capacity ids : remaining (init capacity ids) = (3 * length ids)%nat.
Proof.
  unfold remaining, init. simpl. induction ids as [|pid ids IH]; [reflexivity|].
  rewrite !fmap_cons. simpl. simpl in IH. lia.
Qed.

Lemma remaining_nsteps capacity ids (k : nat) : forall s,
  nsteps step k (init capacity ids) s -> (k + remaining s = 3 * length ids)%nat.
Proof.
  induction k as [|k IH]; intros s H.
  - inversion H; subst. apply remaining_init.
  - apply nsteps_inv_r in H as (s0 & H0 & Hstep).
    specialize (IH s0 H0). apply remaining_step in Hstep. lia.
Qed.

Lemma remaining_finished s :
  count is_finished s = length (tasks s) -> remaining s = 0%nat.
Proof.
  unfold count, remaining. generalize (tasks s). intros l.
  induction l as [|q l IH]; simpl; [reflexivity|].
  pose proof (List.filter_length_le is_finished l) as Hle.
  destruct q as [pid p]. unfold is_finished at 1, steps_left at 1. simpl.
  destruct p; simpl; intros H; try lia. apply IH. lia.
Qed.

End AdmissionMore.

(** X14.  A crawl never comes to a halt on the semaphore: in every state
    it can reach in which some task is not over, some task can take its
    next step. *)
Theorem admission_no_deadlock (ids : list Z) (s : Admission.state) :
  Admission.reachable SEMAPHORE_CAPACITY ids s ->
  (Admission.count Admission.is_finished s < length (Admission.tasks s))%nat ->
  exists s', Admission.step s s'.
Proof.
  intros Hr Hopen.
  apply AdmissionFacts.invariant_reachable in Hr as (Hv & _ & _).
  change SEMAPHORE_CAPACITY with 125%nat in Hv.
  assert (Hmove : forall i pid p,
             Admission.tasks s !! i = Some (pid, p) ->
             p = Admission.Acquired \/ p = Admission.Requesting ->
             exists s', Admission.step s s').
  { intros i pid p Hi [-> | ->].
    - eexists. apply (Admission.step_issue s i pid Hi).
    - eexists. apply (Admission.step_exit s i pid (GetRaises TimeoutError) Hi). discriminate. }
  apply AdmissionMore.filter_some_false in Hopen as (i & [pid p] & Hi & Hp).
  destruct p as [| | |r]; try discriminate; eauto.
  destruct (Nat.eq_dec (Admission.value s) 0%nat) as [H0|Hpos].
  - destruct (AdmissionMore.filter_some_true Admission.holds_slot (Admission.tasks s))
      as (j & [pid' p'] & Hj & Hp').
    { unfold Admission.count in Hv. lia. }
    apply (Hmove j pid' p' Hj). unfold Admission.holds_slot in Hp'. simpl in Hp'.
    destruct p'; try discriminate; auto.
  - eexists. apply (Admission.step_acquire s i pid Hi). lia.
Qed.

Lemma admission_no_deadlock_witness : exists s', Admission.step Admission.sample_state s'.
Proof.
  apply (admission_no_deadlock [104; 105] Admission.sample_state).
  - apply AdmissionMore.sample_state_reachable.
  - vm_compute. lia.
Defined.

(** X15.  When every task of a crawl is over, one request has been issued
    for each of its ids and no other, and each task holds what [fetch]
    makes of an answer to the request of its own id. *)
Theorem admission_completion (ids : list Z) (s : Admission.state) :
  Admission.reachable SEMAPHORE_CAPACITY ids s ->
  Admission.count Admission.is_finished s = length (Admission.tasks s) ->
  Admission.issued s ≡ₚ seq 0 (length ids) /\
  forall (i : nat) pid,
    ids !! i = Some pid ->
    exists o, Admission.tasks s !! i = Some (pid, Admission.Finished (fetch o pid)).
Proof.
  intros Hr Hall.
  pose proof (AdmissionFacts.invariant_reachable _ _ _ Hr) as (_ & Hnd & Hiss).
  pose proof (AdmissionMore.coherent_reachable _ _ _ Hr) as (Hids & Hin & Hfin).
  assert (Hlen : length (Admission.tasks s) = length ids)
    by (rewrite <- Hids; now rewrite length_fmap).
  assert (Hdone : forall (i : nat) pid,
             ids !! i = Some pid ->
             exists r, Admission.tasks s !! i = Some (pid, Admission.Finished r)).
  { intros i pid Hi. rewrite <- Hids, list_lookup_fmap in Hi.
    destruct (Admission.tasks s !! i) as [[pid' p]|] eqn:Ht; simpl in Hi; [|discriminate].
    injection Hi as ->.
    pose proof (AdmissionMore.filter_all_lookup _ _ _ _ Hall Ht) as Hf.
    unfold Admission.is_finished in Hf. simpl in Hf. destruct p; try discriminate. eauto. }
  split.
  - apply NoDup_Permutation; [exact Hnd|apply NoDup_seq|].
    intros i. rewrite elem_of_seq. split.
    + intros Hi. destruct (Hiss i Hi) as (pid & p & Ht & _).
      apply lookup_lt_Some in Ht. lia.
    + intros Hi. destruct (lookup_lt_is_Some_2 ids i) as [pid Hpid]; [lia|].
      destruct (Hdone i pid Hpid) as (r & Ht). apply (Hin i pid _ Ht). right. eauto.
  - intros i pid Hi. destruct (Hdone i pid Hi) as (r & Ht).
    destruct (Hfin i pid r Ht) as (o & ->). eauto.
Qed.

Lemma admission_completion_witness :
  Admission.issued (Admission.mkState 125 [(104, Admission.Finished (Return None))] [0%nat])
    ≡ₚ seq 0 (length [104]) /\
  forall (i : nat) pid,
    [104] !! i = Some pid ->
    exists o,
      Admission.tasks (Admission.mkState 125 [(104, Admission.Finished (Return None))] [0%nat])
        !! i = Some (pid, Admission.Finished (fetch o pid)).
Proof.
  apply (admission_completion
           [104] (Admission.mkState 125 [(104, Admission.Finished (Return None))] [0%nat])).
  - eapply rtc_l.
    { apply (Admission.step_acquire _ 0%nat 104);
        [reflexivity|simpl; unfold SEMAPHORE_CAPACITY; lia]. }
    eapply rtc_l.
    { apply (Admission.step_issue _ 0%nat 104). reflexivity. }
    eapply rtc_l.
    { apply (Admission.step_exit _ 0%nat 104 (GetResponse 404 (Return PNone)));
      [reflexivity|discriminate]. }
    apply rtc_refl.
  - reflexivity.
Defined.

(** X16.  A task takes three steps and none of them twice: after [k]
    steps of a crawl the steps its tasks have still to take are
    [3 * len ids - k], so no run is longer than three steps for each id,
    and a run has taken exactly that many when all its tasks are over. *)
Theorem admission_step_count (ids : list Z) (k : nat) (s : Admission.state) :
  nsteps Admission.step k (Admission.init SEMAPHORE_CAPACITY ids) s ->
  (k + remaining s = 3 * length ids)%nat /\
  (Admission.count Admission.is_finished s = length (Admission.tasks s) ->
   k = (3 * length ids)%nat).
Proof.
  intros H. pose proof (AdmissionMore.remaining_nsteps _ _ _ _ H) as Hk.
  split; [exact Hk|]. intros Hall.
  rewrite (AdmissionMore.remaining_finished s Hall) in Hk. lia.
Qed.

Lemma admission_step_count_witness :
  (5 + remaining Admission.sample_state = 3 * length [104; 105])%nat /\
  (Admission.count Admission.is_finished Admission.sample_state =
   length (Admission.tasks Admission.sample_state) ->
   5%nat = (3 * length [104; 105])%nat).
Proof.
  apply (admission_step_count [104; 105] 5 Admission.sample_state).
  apply AdmissionMore.sample_state_steps.
Defined.

(** ** The names of the chunk files *)

Lemma chunk_filename_compare n m :
  0 < n < 10 ^ 10 -> 0 < m < 10 ^ 10 ->
  String.compare (chunk_filename n) (chunk_filename m) = (n ?= m).
Proof.
  intros Hn Hm. destruct (Z.compare_spec n m) as [->|Hlt|Hgt].
  - apply string_compare_refl.
  - apply chunk_filename_lt; lia.
  - rewrite String.compare_antisym, (chunk_filename_lt m n) by lia. reflexivity.
Qed.

Lemma filter_chunk_filenames (l : list nat) :
  List.filter (fun file => endswith file ".csv")
              ((fun i : nat => chunk_filename (1 + Z.of_nat i)) <$> l) =
  (fun i : nat => chunk_filename (1 + Z.of_nat i)) <$> l.
Proof.
  induction l as [|i l IH]; [reflexivity|].
  rewrite fmap_cons. cbn [List.filter]. rewrite chunk_filename_csv. now f_equal.
Qed.

(** X17.  Up to chunk 10^10 - 1 the names [run_chunks] gives its files
    compare as the chunk numbers do, so that of a directory that holds the
    files of [k] chunks, listed in any order, [merge_chunks] reads the
    files in chunk order. *)
Theorem chunk_files_read_in_chunk_order (k : nat) (names : list string) :
  Z.of_nat k < 10 ^ 10 ->
  names ≡ₚ (fun i : nat => chunk_filename (1 + Z.of_nat i)) <$> seq 0 k ->
  (forall n m, 0 < n <= Z.of_nat k -> 0 < m <= Z.of_nat k ->
               String.compare (chunk_filename n) (chunk_filename m) = (n ?= m)) /\
  List.filter (fun file => endswith file ".csv") (sorted names) =
  (fun i : nat => chunk_filename (1 + Z.of_nat i)) <$> seq 0 k.
Proof.
  intros Hk Hperm. split.
  - intros n m Hn Hm.
    apply chunk_filename_compare; change (10 ^ 10) with 10000000000 in *; lia.
  - rewrite (sorted_order _ _ Hperm).
    destruct (chunk_names_sorted (seq 0 k) 1) as [_ Hsorted];
      [lia|rewrite length_seq; change (10 ^ 10) with 10000000000 in *; lia|].
    rewrite (imap_seq_0 (seq 0 k) (fun i : nat => chunk_filename (1 + Z.of_nat i))),
      length_seq in Hsorted.
    rewrite (sorted_id _ Hsorted). apply filter_chunk_filenames.
Qed.

Lemma chunk_files_read_in_chunk_order_witness :
  (forall n m, 0 < n <= Z.of_nat 3 -> 0 < m <= Z.of_nat 3 ->
               String.compare (chunk_filename n) (chunk_filename m) = (n ?= m)) /\
  List.filter (fun file => endswith file ".csv")
              (sorted [chunk_filename 3; chunk_filename 1; chunk_filename 2]) =
  (fun i : nat => chunk_filename (1 + Z.of_nat i)) <$> seq 0 3.
Proof.
  apply (chunk_files_read_in_chunk_order
           3 [chunk_filename 3; chunk_filename 1; chunk_filename 2]).
  - reflexivity.
  - change ((fun i : nat => chunk_filename (1 + Z.of_nat i)) <$> seq 0 3)
      with [chunk_filename 1; chunk_filename 2; chunk_filename 3].
    etransitivity; [apply perm_swap|]. apply perm_skip, perm_swap.
Defined.

(** ** What the cut keeps *)

Lemma omap_length_le {A B : Type} (f : A -> option B) (l : list A) :
  (length (omap f l) <= length l)%nat.
Proof.
  induction l as [|x l IH]; [reflexivity|].
  cbn [omap list_omap]. destruct (f x); cbn [length]; fold (omap f l); lia.
Qed.

Lemma collect_length task schedule start_id end_id :
  (forall l, schedule l ≡ₚ l) ->
  end_id - start_id < TOP_N ->
  (length (collect task schedule start_id end_id) <= Z.to_nat TOP_N)%nat.
Proof.
  intros Hs Hlen. unfold collect.
  etransitivity; [apply omap_length_le|].
  rewrite Hs, range_length. unfold Py.range_len.
  destruct (Z.ltb_spec start_id (end_id + 1)); [|lia].
  rewrite Z.div_1_r. lia.
Qed.

(** X18.  A crawl as the program runs one, over a chunk or over a range
    that takes the single path, is never cut: at most [CHUNK_SIZE + 1] ids
    are fewer than [TOP_N], and the file the crawl writes holds a row for
    every record of its range. *)
Theorem crawl_projects_keeps_all
    (task : Z -> option Record_) (schedule : list Z -> list Z)
    (start_id end_id : Z) (output_file : path) (w : world) :
  (forall l, schedule l ≡ₚ l) ->
  end_id - start_id <= CHUNK_SIZE ->
  written output_file (crawl_projects task schedule start_id end_id output_file w) =
    Some (to_row <$> sort_desc Views (collect task schedule start_id end_id)) /\
  to_row <$> sort_desc Views (collect task schedule start_id end_id) ≡ₚ
    to_row <$> omap task (Py.range start_id (end_id + 1) 1).
Proof.
  intros Hs Hlen. split.
  - unfold crawl_projects, save_top. rewrite written_write_csv. do 2 f_equal.
    unfold rank. apply take_ge. rewrite sort_desc_length.
    apply collect_length; [exact Hs|]. unfold CHUNK_SIZE, TOP_N in *. lia.
  - apply fmap_Permutation. rewrite sort_desc_perm. now apply collect_perm.
Qed.

Lemma crawl_projects_keeps_all_witness :
  written FinalFile (crawl_projects sample_task reverse 1 5 FinalFile empty_world) =
    Some (to_row <$> sort_desc Views (collect sample_task reverse 1 5)) /\
  to_row <$> sort_desc Views (collect sample_task reverse 1 5) ≡ₚ
    to_row <$> omap sample_task (Py.range 1 (5 + 1) 1).
Proof.
  apply (crawl_projects_keeps_all sample_task reverse 1 5 FinalFile empty_world).
  - intros l. apply reverse_Permutation.
  - unfold CHUNK_SIZE. lia.
Defined.

(** X19.  A run over fewer than [TOP_N] ids drops no record, on either
    path: it ends normally and the final file holds a row for every record
    of the range (on the chunked path in a directory that holds the chunk
    files of this run and nothing else). *)
Theorem entry_keeps_all
    (task : Z -> option Record_) (schedule : list Z -> list Z)
    (listdir : gmap string (list CsvRow) -> list string)
    (start_id end_id : Z) (w : world) :
  (forall l, schedule l ≡ₚ l) ->
  end_id - start_id < TOP_N ->
  (CHUNK_SIZE < end_id - start_id ->
   listdir (chunk_files (run_chunks task schedule start_id end_id w)) ≡ₚ
     (fun i : nat => chunk_filename (1 + Z.of_nat i))
       <$> seq 0 (length (partition CHUNK_SIZE start_id end_id))) ->
  exists w' rows,
    entry task schedule listdir start_id end_id w = Return w' /\
    final_file w' = Some rows /\
    rows ≡ₚ to_row <$> omap task (Py.range start_id (end_id + 1) 1).
Proof.
  intros Hs Hlen Hdir.
  destruct (Z.le_gt_cases (end_id - start_id) CHUNK_SIZE) as [Hshort|Hlong].
  - rewrite entry_single by assumption. do 2 eexists. split; [reflexivity|].
    split; [reflexivity|]. apply fmap_Permutation.
    rewrite rank_perm_all by now apply collect_length. now apply collect_perm.
  - specialize (Hdir Hlong).
    assert (Hcount : Z.of_nat (length (partition CHUNK_SIZE start_id end_id)) < 10 ^ 10).
    { rewrite partition_length by (unfold CHUNK_SIZE in *; lia).
      unfold CHUNK_SIZE, TOP_N in *.
      assert ((end_id - start_id) / 100000 <= end_id - start_id)
        by (apply Z.div_le_upper_bound; lia).
      lia. }
    destruct (chunked_entry_leaderboard task schedule listdir start_id end_id w Hlong)
      as (w' & Hw' & Hfinal).
    + now rewrite length_fmap.
    + rewrite Hdir, name_results_names, imap_seq_0. now rewrite length_fmap.
    + exists w'. eexists. split; [exact Hw'|]. split; [exact Hfinal|].
      apply fmap_Permutation.
      assert (Hp : concat ((fun chunk => collect task schedule (fst chunk) (snd chunk))
                             <$> partition CHUNK_SIZE start_id end_id) ≡ₚ
                   omap task (Py.range start_id (end_id + 1) 1)).
      { rewrite collect_chunks_perm, partition_ids by (assumption || reflexivity).
        reflexivity. }
      rewrite rank_perm_all; [exact Hp|].
      rewrite Hp. etransitivity; [apply omap_length_le|].
      rewrite range_length. unfold Py.range_len.
      destruct (Z.ltb_spec start_id (end_id + 1)); [|lia].
      rewrite Z.div_1_r. lia.
Qed.

Lemma entry_keeps_all_witness :
  exists w' rows,
    entry sample_task reverse sample_run_listdir 1 100002 empty_world = Return w' /\
    final_file w' = Some rows /\
    rows ≡ₚ to_row <$> omap sample_task (Py.range 1 (100002 + 1) 1).
Proof.
  apply (entry_keeps_all sample_task reverse sample_run_listdir 1 100002 empty_world).
  - intros l. apply reverse_Permutation.
  - reflexivity.
  - intros _. unfold sample_run_listdir.
    change (length (partition CHUNK_SIZE 1 100002)) with 2%nat. apply perm_swap.
Defined.
